(** * Field evaluation engine (source/blender/functions/intern/field.cc)

    A shallow embedding of the procedure builder, the destruct inserter, the
    input gatherer and the evaluation orchestrator of [blender::fn], together
    with the properties of the build worklist, of the built procedure and of
    the evaluation entry points.

    Conventions of the embedding:
    - a [FieldSource] is an immutable, finite node; the address of the C++
      object (the key of the [VariableMap]) is carried by the node;
    - an [MFVariable *] is a natural number, allocated by the procedure;
    - a [Stack] is a list whose head is the top;
    - [BLI_assert] aborts the call ([Fail AssertionFailed]);
    - a [while] loop takes a fuel argument and answers [Fail OutOfFuel] when
      it is exhausted. *)

From Stdlib Require Import ZArith.
From stdpp Require Import base option list gmap sets strings.

(** ** Data model *)

(** [CPPType]: run-time descriptor of an element type. *)
Definition CPPType := nat.

(** [MFVariable *]: identity of a variable of a procedure. *)
Definition Var := nat.

(** The elementwise function of an operation: its debug name, the number of
    output parameters it declares, and what it computes for one element from
    the values of its inputs. *)
Record MultiFunction := mkMultiFunction {
  mf_name : string;
  mf_outputs : nat;
  mf_eval : list Z → list Z
}.

(** [FieldSource] with its two variants, and [GField], a handle on one
    output of a source.  [addr] is the address of the node, [varray] what
    [get_varray_generic_context] gives for an input: its value at every
    element. *)
Inductive FieldSource :=
| FieldInput (addr : nat) (debug_name : string) (varray : nat → Z)
| FieldOperation (addr : nat) (fn : MultiFunction) (inputs : list GField)
with GField :=
| mkGField (src : FieldSource) (output_index : nat) (type : CPPType).

Definition source (f : GField) : FieldSource :=
  match f with mkGField s _ _ => s end.
Definition source_output_index (f : GField) : nat :=
  match f with mkGField _ i _ => i end.
Definition cpp_type (f : GField) : CPPType :=
  match f with mkGField _ _ t => t end.

(** [&field.source()] *)
Definition address (s : FieldSource) : nat :=
  match s with
  | FieldInput a _ _ => a
  | FieldOperation a _ _ => a
  end.

Definition source_is_input (s : FieldSource) : bool :=
  match s with
  | FieldInput _ _ _ => true
  | FieldOperation _ _ _ => false
  end.

(** [field.is_input()] *)
Definition is_input (f : GField) : bool := source_is_input (source f).

(** [operation.inputs()]; an input has none. *)
Definition inputs_of (s : FieldSource) : list GField :=
  match s with
  | FieldInput _ _ _ => []
  | FieldOperation _ _ ins => ins
  end.

(** ** Results of fallible code *)

Inductive error := AssertionFailed | OutOfRange | OutOfFuel.

Inductive result (A : Type) :=
| Ok (a : A)
| Fail (e : error).
Arguments Ok {A} a.
Arguments Fail {A} e.

#[global] Instance result_ret : MRet result := λ A a, Ok a.
#[global] Instance result_bind : MBind result := λ A B f r,
  match r with
  | Ok a => f a
  | Fail e => Fail e
  end.

(** A lookup that is undefined behaviour in C++ when it misses. *)
Definition defined {A} (o : option A) : result A :=
  match o with
  | Some a => Ok a
  | None => Fail OutOfRange
  end.

(** [BLI_assert] *)
Definition BLI_assert (b : bool) : result unit :=
  if b then Ok tt else Fail AssertionFailed.

(** ** Procedures *)

Inductive Instr :=
| IInputParam (v : Var) (ty : CPPType) (name : string)
| ICall (fn : MultiFunction) (inputs outputs : list Var)
| IDestruct (v : Var)
| IReturn
| IOutputParam (v : Var).

(** Modelled from the spec: [MFProcedure] and [MFProcedureBuilder]
    (FN_multi_function_procedure_builder.hh is not part of the sources at
    hand).  A procedure is the ordered list of what the builder emitted
    (parameter declarations, calls, destructs, return), and owns its
    variables, numbered in order of creation. *)
Record MFProcedure := mkProcedure {
  instructions : list Instr;
  num_variables : nat
}.

Definition empty_procedure : MFProcedure := mkProcedure [] 0.

Definition emit (i : Instr) (p : MFProcedure) : MFProcedure :=
  mkProcedure (instructions p ++ [i]) (num_variables p).

(** Modelled from the spec: [MFProcedureBuilder::add_input_parameter]
    declares a new input-parameter variable. *)
Definition add_input_parameter (ty : CPPType) (name : string) (p : MFProcedure)
  : Var * MFProcedure :=
  let v := num_variables p in
  (v, mkProcedure (instructions p ++ [IInputParam v ty name]) (S v)).

(** Modelled from the spec: [MFProcedureBuilder::add_call] emits a call
    instruction with fresh output variables sized to the output arity of the
    function, and returns them. *)
Definition add_call (fn : MultiFunction) (inputs : list Var) (p : MFProcedure)
  : list Var * MFProcedure :=
  let outs := seq (num_variables p) (mf_outputs fn) in
  (outs, mkProcedure (instructions p ++ [ICall fn inputs outs])
                     (num_variables p + mf_outputs fn)).

Definition add_destruct (v : Var) : MFProcedure → MFProcedure := emit (IDestruct v).
Definition add_return : MFProcedure → MFProcedure := emit IReturn.
Definition add_output_parameter (v : Var) : MFProcedure → MFProcedure :=
  emit (IOutputParam v).

(** ** The unique-variable map *)

(** [Map<const FieldSource *, Vector<MFVariable *>>] *)
Abbreviation VariableMap := (gmap nat (list Var)).

Definition contains (m : VariableMap) (a : nat) : bool :=
  bool_decide (is_Some (m !! a)).

(** [Map::add]: inserts only when the key is absent. *)
Definition map_add (a : nat) (vs : list Var) (m : VariableMap) : VariableMap :=
  match m !! a with
  | Some _ => m
  | None => <[a := vs]> m
  end.

(** [get_field_variable]: [None] where the C++ code looks up a missing key
    or indexes a vector out of range. *)
Definition get_field_variable (field : GField) (unique_variables : VariableMap)
  : option Var :=
  match source field with
  | FieldInput a _ _ => unique_variables !! a ≫= head
  | FieldOperation a _ _ =>
      unique_variables !! a ≫= λ outs, outs !! source_output_index field
  end.

(** ** Procedure builder *)

(** The [dynamic_cast] of a source to the other variant throws. *)
Definition add_variables_for_input (field : GField) (fields_to_visit : list GField)
    (builder : MFProcedure) (unique_variables : VariableMap)
  : result (list GField * MFProcedure * VariableMap) :=
  let stack := tail fields_to_visit in
  match source field with
  | FieldInput a name _ =>
      let '(variable, builder') :=
        add_input_parameter (cpp_type field) name builder in
      Ok (stack, builder', map_add a [variable] unique_variables)
  | FieldOperation _ _ _ => Fail AssertionFailed
  end.

(** The set [unique_inputs] of the C++ function is written and never read;
    it is left out. *)
Definition add_variables_for_operation (field : GField)
    (fields_to_visit : list GField)
    (builder : MFProcedure) (unique_variables : VariableMap)
  : result (list GField * MFProcedure * VariableMap) :=
  match source field with
  | FieldInput _ _ _ => Fail AssertionFailed
  | FieldOperation a fn inputs =>
      match find (λ i, negb (contains unique_variables (address (source i)))) inputs with
      | Some input_field =>
          Ok (input_field :: fields_to_visit, builder, unique_variables)
      | None =>
          let stack := tail fields_to_visit in
          match mapM (λ i, get_field_variable i unique_variables) inputs with
          | None => Fail OutOfRange
          | Some ins =>
              let '(outputs, builder') := add_call fn ins builder in
              let unique_outputs := default [] (unique_variables !! a) in
              Ok (stack, builder',
                  <[a := unique_outputs ++ outputs]> unique_variables)
          end
      end
  end.

(** One iteration of the [while] loop of [add_unique_variables], on a
    non-empty stack whose top is [field]. *)
Definition visit_top (field : GField) (fields_to_visit : list GField)
    (builder : MFProcedure) (unique_variables : VariableMap)
  : result (list GField * MFProcedure * VariableMap) :=
  if contains unique_variables (address (source field)) then
    Ok (tail fields_to_visit, builder, unique_variables)
  else if is_input field then
    add_variables_for_input field fields_to_visit builder unique_variables
  else
    add_variables_for_operation field fields_to_visit builder unique_variables.

Fixpoint visit_loop (fuel : nat) (fields_to_visit : list GField)
    (builder : MFProcedure) (unique_variables : VariableMap)
  : result (MFProcedure * VariableMap) :=
  match fields_to_visit with
  | [] => Ok (builder, unique_variables)
  | field :: _ =>
      match fuel with
      | 0 => Fail OutOfFuel
      | S fuel' =>
          match visit_top field fields_to_visit builder unique_variables with
          | Ok (stack, builder', unique_variables') =>
              visit_loop fuel' stack builder' unique_variables'
          | Fail e => Fail e
          end
      end
  end.

(** Pushing the requested fields one after the other leaves the last one on
    top. *)
Definition push_all {A} (xs : list A) (stack : list A) : list A :=
  foldl (λ st x, x :: st) stack xs.

Definition add_unique_variables (fuel : nat) (fields : list GField)
    (builder : MFProcedure) (unique_variables : VariableMap)
  : result (MFProcedure * VariableMap) :=
  visit_loop fuel (push_all fields []) builder unique_variables.

(** ** Destruct insertion *)

(** The first loop of [add_destructs]: the set of the output variables. *)
Fixpoint collect_outputs (fields : list GField) (unique_variables : VariableMap)
    (outputs : gset Var) : result (gset Var) :=
  match fields with
  | [] => Ok outputs
  | field :: fields' =>
      _ ← BLI_assert (negb (is_input field));
      v ← defined (get_field_variable field unique_variables);
      collect_outputs fields' unique_variables ({[v]} ∪ outputs)
  end.

(** [unique_variables.values()], flattened.  The hash map of the C++ code
    fixes no order among its values; here they come in the order of the
    keys, and nothing below depends on it. *)
Definition all_variables (unique_variables : VariableMap) : list Var :=
  mjoin (snd <$> map_to_list unique_variables).

Definition add_destructs (fields : list GField) (builder : MFProcedure)
    (unique_variables : VariableMap) : result MFProcedure :=
  outputs ← collect_outputs fields unique_variables ∅;
  Ok (foldl (λ b variable,
               if decide (variable ∈ outputs) then b else add_destruct variable b)
            builder (all_variables unique_variables)).

(** ** Structural validation *)

(** Modelled from the spec: [MFProcedure::validate] (its definition is not
    part of the sources at hand).  Every variable referenced by a call was
    produced by a strictly earlier instruction or is a parameter, and every
    output parameter names a produced variable. *)
Fixpoint validate_from (produced : gset Var) (instrs : list Instr) : bool :=
  match instrs with
  | [] => true
  | IInputParam v _ _ :: rest => validate_from ({[v]} ∪ produced) rest
  | ICall _ ins outs :: rest =>
      forallb (λ v, bool_decide (v ∈ produced)) ins
      && validate_from (list_to_set outs ∪ produced) rest
  | IDestruct _ :: rest => validate_from produced rest
  | IReturn :: rest => validate_from produced rest
  | IOutputParam v :: rest =>
      bool_decide (v ∈ produced) && validate_from produced rest
  end.

Definition validate (procedure : MFProcedure) : bool :=
  validate_from ∅ (instructions procedure).

(** ** build_procedure *)

Fixpoint add_output_parameters (fields : list GField) (builder : MFProcedure)
    (unique_variables : VariableMap) : result MFProcedure :=
  match fields with
  | [] => Ok builder
  | field :: fields' =>
      input ← defined (get_field_variable field unique_variables);
      add_output_parameters fields' (add_output_parameter input builder)
                            unique_variables
  end.

Definition build_procedure (fuel : nat) (fields : list GField)
    (procedure : MFProcedure) (unique_variables : VariableMap)
  : result (MFProcedure * VariableMap) :=
  '(builder, unique_variables) ←
     add_unique_variables fuel fields procedure unique_variables;
  builder ← add_destructs fields builder unique_variables;
  let builder := add_return builder in
  builder ← add_output_parameters fields builder unique_variables;
  _ ← BLI_assert (validate builder);
  Ok (builder, unique_variables).

(** ** Evaluation: masks, buffers, parameters *)

(** [IndexMask]: the indices to evaluate, in increasing order. *)
Abbreviation IndexMask := (list nat).

(** [IndexRange(n)] as a mask: the indices [0 .. n-1]. *)
Definition IndexRange (n : nat) : IndexMask := seq 0 n.

(** [GMutableSpan]: a typed view on caller-owned storage. *)
Record GMutableSpan := mkGMutableSpan {
  span_type : CPPType;
  span_data : nat;
  span_size : nat
}.

(** The storage of the caller: the content of the block found at each
    base pointer. *)
Abbreviation Memory := (gmap nat (list Z)).

(** What [gather_inputs] and [add_outputs] hand to the executor, in the
    order in which they add it. *)
Inductive Param :=
| ReadonlySingleInput (data : nat → Z) (name : string)
| UninitializedSingleOutput (span : GMutableSpan).

(** Observable steps of one evaluation: an input asked for its data, and a
    procedure constructed. *)
Inductive Event :=
| EvGetVArray (input : nat)
| EvProcedure (fields : list GField).

(** Writing element [i] of the block at [ptr]; outside of the block it is
    undefined behaviour in C++. *)
Definition write_element (ptr : nat) (i : nat) (x : Z) (mem : Memory)
  : result Memory :=
  block ← defined (mem !! ptr);
  if decide (i < length block)
  then Ok (<[ptr := <[i := x]> block]> mem)
  else Fail OutOfRange.

(** [GVArray::materialize(mask, dst)]: copies the masked elements. *)
Fixpoint materialize (data : nat → Z) (mask : IndexMask) (dst : nat)
    (mem : Memory) : result Memory :=
  match mask with
  | [] => Ok mem
  | i :: mask' =>
      mem' ← write_element dst i (data i) mem;
      materialize data mask' dst mem'
  end.

(** ** Input gathering *)

Record GatherState := mkGatherState {
  gs_stack : list GField;
  gs_computed : gset Var;
  gs_params : list Param;
  gs_inputs : list (nat → Z);
  gs_trace : list Event
}.

(** One iteration of the [while] loop of [gather_inputs]: [field] has just
    been popped and [st] holds the remaining stack. *)
Definition gather_visit (field : GField) (unique_variables : VariableMap)
    (st : GatherState) : result GatherState :=
  match source field with
  | FieldInput a name varray =>
      variable ← defined (get_field_variable field unique_variables);
      if decide (variable ∈ gs_computed st) then Ok st
      else
        Ok (mkGatherState (gs_stack st)
              ({[variable]} ∪ gs_computed st)
              (gs_params st ++ [ReadonlySingleInput varray name])
              (gs_inputs st ++ [varray])
              (gs_trace st ++ [EvGetVArray a]))
  | FieldOperation _ _ inputs =>
      Ok (mkGatherState (push_all inputs (gs_stack st))
            (gs_computed st) (gs_params st) (gs_inputs st) (gs_trace st))
  end.

Fixpoint gather_loop (fuel : nat) (unique_variables : VariableMap)
    (st : GatherState) : result GatherState :=
  match gs_stack st with
  | [] => Ok st
  | field :: stack =>
      match fuel with
      | 0 => Fail OutOfFuel
      | S fuel' =>
          st' ← gather_visit field unique_variables
                  (mkGatherState stack (gs_computed st) (gs_params st)
                                 (gs_inputs st) (gs_trace st));
          gather_loop fuel' unique_variables st'
      end
  end.

Definition gather_inputs (fuel : nat) (fields : list GField)
    (unique_variables : VariableMap) (mask : IndexMask)
    (params : list Param) (r_inputs : list (nat → Z)) (trace : list Event)
  : result (list Param * list (nat → Z) * list Event) :=
  st ← gather_loop fuel unique_variables
         (mkGatherState (push_all fields []) ∅ params r_inputs trace);
  Ok (gs_params st, gs_inputs st, gs_trace st).

Definition add_outputs (params : list Param) (outputs : list GMutableSpan)
  : list Param :=
  foldl (λ ps out, ps ++ [UninitializedSingleOutput out]) params outputs.

(** ** The procedure executor *)

(** The value of every live variable, element by element. *)
Abbreviation Env := (gmap Var (nat → Z)).

(** Modelled from the spec: [MFProcedureExecutor] and [MFParamsBuilder]
    (not part of the sources at hand).  The parameter slots of a procedure
    are its parameter declarations in the order of their declaration; the
    bindings are added one after the other, without naming a variable, and
    so the k-th binding fills the k-th slot.  A binding of the wrong kind,
    a missing one or one too many is a failed assertion. *)
Fixpoint bind_parameters (instrs : list Instr) (params : list Param)
    (env : Env) (outs : list (Var * GMutableSpan))
  : result (Env * list (Var * GMutableSpan)) :=
  match instrs with
  | [] =>
      match params with
      | [] => Ok (env, outs)
      | _ :: _ => Fail AssertionFailed
      end
  | IInputParam v _ _ :: rest =>
      match params with
      | ReadonlySingleInput data _ :: params' =>
          bind_parameters rest params' (<[v := data]> env) outs
      | _ => Fail AssertionFailed
      end
  | IOutputParam v :: rest =>
      match params with
      | UninitializedSingleOutput span :: params' =>
          bind_parameters rest params' env (outs ++ [(v, span)])
      | _ => Fail AssertionFailed
      end
  | _ :: rest => bind_parameters rest params env outs
  end.

(** Modelled from the spec: a call applies the elementwise function to the
    values of its input variables and defines its output variables. *)
Definition run_call (fn : MultiFunction) (ins outs : list Var) (env : Env)
  : result Env :=
  arrays ← defined (mapM (λ v, env !! v) ins);
  let values i := mf_eval fn ((λ a : nat → Z, a i) <$> arrays) in
  Ok (foldl (λ e '(k, v), <[v := λ i, default 0%Z (values i !! k)]> e)
            env (zip (seq 0 (length outs)) outs)).

(** Modelled from the spec: the instructions run in order up to the
    return. *)
Fixpoint run_instructions (instrs : list Instr) (env : Env) : result Env :=
  match instrs with
  | [] => Ok env
  | IReturn :: _ => Ok env
  | ICall fn ins outs :: rest =>
      env' ← run_call fn ins outs env;
      run_instructions rest env'
  | IDestruct v :: rest => run_instructions rest (delete v env)
  | IInputParam _ _ _ :: rest => run_instructions rest env
  | IOutputParam _ :: rest => run_instructions rest env
  end.

(** Modelled from the spec: the masked elements of an output variable are
    written to the span bound to it. *)
Fixpoint write_span (data : nat → Z) (mask : IndexMask) (span : GMutableSpan)
    (mem : Memory) : result Memory :=
  match mask with
  | [] => Ok mem
  | i :: mask' =>
      _ ← BLI_assert (bool_decide (i < span_size span));
      mem' ← write_element (span_data span) i (data i) mem;
      write_span data mask' span mem'
  end.

Fixpoint write_outputs (mask : IndexMask) (outs : list (Var * GMutableSpan))
    (env : Env) (mem : Memory) : result Memory :=
  match outs with
  | [] => Ok mem
  | (v, span) :: outs' =>
      data ← defined (env !! v);
      mem' ← write_span data mask span mem;
      write_outputs mask outs' env mem'
  end.

(** Modelled from the spec: [MFProcedureExecutor::call(mask, params,
    context)] runs all instructions over the masked elements. *)
Definition executor_call (procedure : MFProcedure) (mask : IndexMask)
    (params : list Param) (mem : Memory) : result Memory :=
  '(env, outs) ← bind_parameters (instructions procedure) params ∅ [];
  env' ← run_instructions (instructions procedure) env;
  write_outputs mask outs env' mem.

(** ** Evaluation orchestrator *)

(** The caller's storage and what has been observed so far. *)
Record World := mkWorld {
  memory : Memory;
  trace : list Event
}.

(** Evaluation steps act on the world and may abort; the world at the
    abort is kept. *)
Definition Eval (A : Type) : Type := World → World * result A.

#[global] Instance eval_ret : MRet Eval := λ A a w, (w, Ok a).
#[global] Instance eval_bind : MBind Eval := λ A B f m w,
  match m w with
  | (w', Ok a) => f a w'
  | (w', Fail e) => (w', Fail e)
  end.

Definition lift {A} (r : result A) : Eval A := λ w, (w, r).

Definition record (ev : Event) : Eval unit :=
  λ w, (mkWorld (memory w) (trace w ++ [ev]), Ok tt).

Definition on_memory (f : Memory → result Memory) : Eval unit :=
  λ w, match f (memory w) with
       | Ok mem => (mkWorld mem (trace w), Ok tt)
       | Fail e => (w, Fail e)
       end.

Definition on_trace {A} (f : list Event → result (A * list Event)) : Eval A :=
  λ w, match f (trace w) with
       | Ok (a, tr) => (mkWorld (memory w) tr, Ok a)
       | Fail e => (w, Fail e)
       end.

(** [mask.min_array_size()] only sizes the parameter slots, and the
    context is empty; neither appears here. *)
Definition evaluate_non_input_fields (fuel : nat) (fields : list GField)
    (mask : IndexMask) (outputs : list GMutableSpan) : Eval unit :=
  _ ← record (EvProcedure fields);
  '(procedure, unique_variables) ←
     lift (build_procedure fuel fields empty_procedure ∅);
  params ← on_trace (λ tr,
     '(params, _, tr') ← gather_inputs fuel fields unique_variables mask [] [] tr;
     Ok (params, tr'));
  let params := add_outputs params outputs in
  on_memory (executor_call procedure mask params).

(** Modelled from the spec: [Vector::remove_and_reorder] (BLI_vector.hh is
    not part of the sources at hand) removes the element at the index by
    moving the last element into its place. *)
Definition remove_and_reorder {A} (i : nat) (v : list A) : list A :=
  match last v with
  | None => v
  | Some x => take (length v - 1) (<[i := x]> v)
  end.

(** The loop [for (int i = fields.size() - 1; i >= 0; i--)] of
    [evaluate_fields], entered with [n = i + 1]. *)
Fixpoint materialize_input_fields (n : nat) (mask : IndexMask)
    (outputs : list GMutableSpan)
    (non_input_fields : list GField) (non_input_outputs : list GMutableSpan)
  : Eval (list GField * list GMutableSpan) :=
  match n with
  | 0 => mret (non_input_fields, non_input_outputs)
  | S i =>
      field ← lift (defined (non_input_fields !! i));
      match source field with
      | FieldInput a _ varray =>
          _ ← record (EvGetVArray a);
          out ← lift (defined (outputs !! i));
          _ ← on_memory (materialize varray mask (span_data out));
          materialize_input_fields i mask outputs
            (remove_and_reorder i non_input_fields)
            (remove_and_reorder i non_input_outputs)
      | FieldOperation _ _ _ =>
          materialize_input_fields i mask outputs
            non_input_fields non_input_outputs
      end
  end.

Definition evaluate_fields (fuel : nat) (fields : list GField)
    (mask : IndexMask) (outputs : list GMutableSpan) : Eval unit :=
  _ ← lift (BLI_assert (bool_decide (length fields = length outputs)));
  '(non_input_fields, non_input_outputs) ←
     materialize_input_fields (length fields) mask outputs fields outputs;
  match non_input_fields with
  | [] => mret tt
  | _ :: _ =>
      evaluate_non_input_fields fuel non_input_fields mask non_input_outputs
  end.

Definition evaluate_constant_field (fuel : nat) (field : GField)
    (r_value : nat) : Eval unit :=
  let value_span := mkGMutableSpan (cpp_type field) r_value 1 in
  evaluate_fields fuel [field] (IndexRange 1) [value_span].

(** ** The value of a field *)

(** What a field denotes at one element: the data of an input, and for an
    operation the outputs of its function on the values of its inputs. *)
Fixpoint source_values (s : FieldSource) (i : nat) : list Z :=
  match s with
  | FieldInput _ _ varray => [varray i]
  | FieldOperation _ fn inputs =>
      mf_eval fn
        (map (λ f, default 0%Z
                     (source_values (source f) i !! source_output_index f))
             inputs)
  end.

Definition field_value (f : GField) (i : nat) : Z :=
  default 0%Z (source_values (source f) i !! source_output_index f).

(** ** The fields reachable from a request *)

(** The fields below a source, and a field with all the fields below it. *)
Fixpoint source_fields (s : FieldSource) : list GField :=
  match s with
  | FieldInput _ _ _ => []
  | FieldOperation _ _ inputs =>
      inputs ≫= λ i, i :: source_fields (source i)
  end.

Definition subfields (f : GField) : list GField :=
  f :: source_fields (source f).

(** Every field reachable from the requested ones. *)
Definition all_fields (fields : list GField) : list GField :=
  fields ≫= subfields.

(** The addresses of the sources reachable from the requested fields. *)
Definition all_addresses (fields : list GField) : gset nat :=
  list_to_set ((λ f, address (source f)) <$> all_fields fields).

(** Depth of a source below which there are only inputs. *)
Fixpoint height (s : FieldSource) : nat :=
  match s with
  | FieldInput _ _ _ => 0
  | FieldOperation _ _ inputs =>
      S (foldr max 0 (map (λ i, height (source i)) inputs))
  end.

(** Number of visits of [gather_inputs] below and at a source. *)
Fixpoint visits (s : FieldSource) : nat :=
  match s with
  | FieldInput _ _ _ => 1
  | FieldOperation _ _ inputs =>
      S (foldr plus 0 (map (λ i, visits (source i)) inputs))
  end.

(** A pointer names one object: reachable fields whose sources have the
    same address have the same source. *)
Definition identity_consistent (fields : list GField) : Prop :=
  ∀ f1 f2, f1 ∈ all_fields fields → f2 ∈ all_fields fields →
    address (source f1) = address (source f2) → source f1 = source f2.

(** A field on an operation selects one of the outputs of its function. *)
Definition indices_in_range (fields : list GField) : Prop :=
  ∀ f a fn inputs, f ∈ all_fields fields →
    source f = FieldOperation a fn inputs →
    source_output_index f < mf_outputs fn.

(** * Specification of the build worklist *)

Abbreviation addr_of f := (address (source f)).

Definition variables_of (M : VariableMap) (f : GField) : list Var :=
  default [] (M !! addr_of f).

(** The instruction that materializes the source of [f] under the map [M]. *)
Definition emitted (M : VariableMap) (f : GField) (instr : Instr) : Prop :=
  match source f with
  | FieldInput a name _ =>
      ∃ v, M !! a = Some [v] ∧ instr = IInputParam v (cpp_type f) name
  | FieldOperation a fn inputs =>
      ∃ vs outs, M !! a = Some outs ∧ length outs = mf_outputs fn ∧
        mapM (λ i, get_field_variable i M) inputs = Some vs ∧
        instr = ICall fn vs outs
  end.

(** The variables produced by a sequence of instructions. *)
Definition produced_by (instr : Instr) : gset Var :=
  match instr with
  | IInputParam v _ _ => {[v]}
  | ICall _ _ outs => list_to_set outs
  | _ => ∅
  end.

Definition produced (instrs : list Instr) : gset Var :=
  ⋃ (produced_by <$> instrs).

(** Invariant of the loop of [add_unique_variables]: [order] lists the
    fields whose sources have been materialized, oldest first. *)
Record build_inv (fields order stack : list GField)
    (P : MFProcedure) (M : VariableMap) : Prop := BuildInv {
  inv_instrs : Forall2 (emitted M) order (instructions P);
  inv_dom : dom M = list_to_set ((λ f, addr_of f) <$> order);
  inv_nodup : NoDup ((λ f, addr_of f) <$> order);
  inv_order : ∀ f, f ∈ order → f ∈ all_fields fields;
  inv_stack : ∀ f, f ∈ stack → f ∈ all_fields fields;
  inv_before : ∀ k f i, order !! k = Some f → i ∈ inputs_of (source f) →
    ∃ j g, j < k ∧ order !! j = Some g ∧ addr_of g = addr_of i;
  inv_vars : mjoin (variables_of M <$> order) = seq 0 (num_variables P);
  inv_seeds : ∀ f, f ∈ fields → addr_of f ∈ dom M ∨ f ∈ stack;
  inv_valid : validate_from ∅ (instructions P) = true;
  inv_produced : produced (instructions P) = list_to_set (seq 0 (num_variables P))
}.

(** Measure of the loop. *)
Definition unresolved (fields : list GField) (M : VariableMap) : nat :=
  size (all_addresses fields ∖ dom M).

Definition max_height (fields : list GField) : nat :=
  foldr max 0 ((λ f, height (source f)) <$> all_fields fields).

Definition top_weight (fields stack : list GField) (M : VariableMap) : nat :=
  match stack with
  | [] => 0
  | f :: _ =>
      if contains M (addr_of f) then 2 * max_height fields + 2
      else 2 * height (source f)
  end.

Definition potential (fields stack : list GField) (M : VariableMap) : nat :=
  (2 * max_height fields + 3) * unresolved fields M
  + length stack + top_weight fields stack M.

(** Fuel that always suffices for the worklist of a request. *)
Definition build_fuel (fields : list GField) : nat :=
  S (potential fields (push_all fields []) ∅).


(** The variables released, and the variables declared as output
    parameters, by a sequence of instructions, in order. *)
Definition destructs_of (instrs : list Instr) : list Var :=
  omap (λ instr, match instr with IDestruct v => Some v | _ => None end) instrs.

Definition output_params_of (instrs : list Instr) : list Var :=
  omap (λ instr, match instr with IOutputParam v => Some v | _ => None end) instrs.

(** Instructions that materialize a source. *)
Definition is_definition (instr : Instr) : bool :=
  match instr with
  | IInputParam _ _ _ | ICall _ _ _ => true
  | _ => false
  end.

Definition is_input_param (instr : Instr) : bool :=
  match instr with IInputParam _ _ _ => true | _ => false end.

Definition is_call (instr : Instr) : bool :=
  match instr with ICall _ _ _ => true | _ => false end.

(** The distinct inputs, and the distinct operations, reachable from the
    requested fields. *)
Definition input_addresses (fields : list GField) : gset nat :=
  list_to_set ((λ f, addr_of f)
                 <$> filter (λ f, is_input f = true) (all_fields fields)).


(** The first [n] iterations of the loop of [add_unique_variables]. *)
Fixpoint visit_steps (n : nat) (fields_to_visit : list GField)
    (builder : MFProcedure) (unique_variables : VariableMap)
  : result (list GField * MFProcedure * VariableMap) :=
  match n, fields_to_visit with
  | 0, _ | _, [] => Ok (fields_to_visit, builder, unique_variables)
  | S n', field :: _ =>
      '(stack, builder', unique_variables') ←
         visit_top field fields_to_visit builder unique_variables;
      visit_steps n' stack builder' unique_variables'
  end.

(** * Specification of the evaluation *)

(** The inputs asked for their data, in the order of the requests. *)
Definition inputs_asked (tr : list Event) : list nat :=
  omap (λ ev, match ev with EvGetVArray a => Some a | _ => None end) tr.

(** The requests for which a procedure was constructed. *)
Definition procedures_built (tr : list Event) : list (list GField) :=
  omap (λ ev, match ev with EvProcedure fs => Some fs | _ => None end) tr.

(** Invariant of the loop of [gather_inputs]: [called] lists the inputs
    asked for their data since the trace was [tr0]. *)
Record gather_inv (fields : list GField) (M : VariableMap) (tr0 : list Event)
    (st : GatherState) (called : list nat) : Prop := GatherInv {
  gi_trace : gs_trace st = tr0 ++ (EvGetVArray <$> called);
  gi_nodup : NoDup called;
  gi_computed : ∀ a, a ∈ called →
    ∃ v, M !! a ≫= head = Some v ∧ v ∈ gs_computed st;
  gi_called : ∀ a, a ∈ called →
    ∃ f, f ∈ all_fields fields ∧ is_input f = true ∧ addr_of f = a;
  gi_stack : ∀ f, f ∈ gs_stack st → f ∈ all_fields fields
}.

(** Number of iterations that a stack of [gather_inputs] still costs. *)
Definition stack_visits (stack : list GField) : nat :=
  sum_list_with (λ f, visits (source f)) stack.

(** Following the spec, the first phase of [evaluate_fields] on the pairs
    of a field and its buffer, in the order given: a bare input is asked for
    its data, which is copied to the buffer; other fields are skipped. *)
Fixpoint direct_pass (mask : IndexMask) (pairs : list (GField * GMutableSpan))
  : Eval unit :=
  match pairs with
  | [] => mret tt
  | (field, out) :: pairs' =>
      match source field with
      | FieldInput a _ varray =>
          _ ← record (EvGetVArray a);
          _ ← on_memory (materialize varray mask (span_data out));
          direct_pass mask pairs'
      | FieldOperation _ _ _ => direct_pass mask pairs'
      end
  end.

(** The vectors that the loop of [evaluate_fields] leaves, computed without
    the world. *)
Fixpoint remaining {A} (keep : A → bool) (n : nat) (v : list A) : list A :=
  match n with
  | 0 => v
  | S i =>
      match v !! i with
      | Some x =>
          if keep x then remaining keep i v
          else remaining keep i (remove_and_reorder i v)
      | None => v
      end
  end.

(** The pairs that stay for the procedure: those of a field that is not a
    bare input. *)
Definition keeps (p : GField * GMutableSpan) : bool := negb (is_input p.1).

(** What stays in [non_input_fields] and [non_input_outputs], paired. *)
Definition non_input_pairs (fields : list GField) (outputs : list GMutableSpan)
  : list (GField * GMutableSpan) :=
  remaining keeps (length fields) (zip fields outputs).

(** * Sample requests *)

Module Samples.

(** An input whose data is [1, 2, 3, ...]. *)
Definition input_A : FieldSource := FieldInput 1 "A" (λ i, Z.of_nat i + 1)%Z.

(** An input whose data is [3, 3, 3, ...]. *)
Definition input_B : FieldSource := FieldInput 2 "B" (λ _, 3)%Z.

Definition double : MultiFunction :=
  mkMultiFunction "double" 1
    (λ xs, match xs with [x] => [2 * x] | _ => [] end)%Z.

Definition square : MultiFunction :=
  mkMultiFunction "square" 1
    (λ xs, match xs with [x] => [x * x] | _ => [] end)%Z.

Definition subtract : MultiFunction :=
  mkMultiFunction "subtract" 1
    (λ xs, match xs with [x; y] => [x - y] | _ => [] end)%Z.

(** A function with two outputs: quotient and remainder by two. *)
Definition halve : MultiFunction :=
  mkMultiFunction "halve" 2
    (λ xs, match xs with [x] => [x / 2; x mod 2] | _ => [] end)%Z.

Definition field_A : GField := mkGField input_A 0 0.
Definition field_B : GField := mkGField input_B 0 0.

Definition double_A : GField :=
  mkGField (FieldOperation 10 double [field_A]) 0 0.
Definition square_A : GField :=
  mkGField (FieldOperation 11 square [field_A]) 0 0.
Definition square_double_A : GField :=
  mkGField (FieldOperation 12 square [double_A]) 0 0.
Definition A_minus_B : GField :=
  mkGField (FieldOperation 13 subtract [field_A; field_B]) 0 0.
Definition half_A : GField :=
  mkGField (FieldOperation 14 halve [field_A]) 0 0.
Definition square_double_B : GField :=
  mkGField (FieldOperation 16 square
              [mkGField (FieldOperation 15 double [field_B]) 0 0]) 0 0.

(** The storage of a caller: two blocks of three elements, at 100 and at
    200. *)
Definition world : World :=
  mkWorld {[ 100 := [0; 0; 0]%Z; 200 := [0; 0; 0]%Z ]} [].

Definition out_100 : GMutableSpan := mkGMutableSpan 0 100 3.
Definition out_200 : GMutableSpan := mkGMutableSpan 0 200 3.

(** Two requested fields sharing one input. *)
Definition shared_request : list GField := [double_A; square_A].

(** One output of an operation with two outputs. *)
Definition half_request : list GField := [half_A].

End Samples.

(** * Specification of the input gatherer after a build *)

(** What the loop of [gather_inputs] keeps beyond [gather_inv], when the
    map comes from a build: the computed variables are those of the inputs
    asked so far, every reachable input is asked or still below a field of
    the stack, and one parameter is bound for each input asked. *)
Definition gather_complete (fields : list GField) (M : VariableMap)
    (params0 : list Param) (st : GatherState) (called : list nat) : Prop :=
  (∀ v, v ∈ gs_computed st → ∃ a, a ∈ called ∧ M !! a ≫= head = Some v) ∧
  (∀ f, f ∈ all_fields fields → is_input f = true →
     addr_of f ∈ called ∨ ∃ s, s ∈ gs_stack st ∧ f ∈ subfields s) ∧
  length (gs_params st) = length params0 + length called.

(** * Film conversion: scale and exposure

    The helpers of the film conversion kernel that follow the definitions of
    the field evaluation in the same source file.  The arithmetic of [float]
    is left abstract: what is proved about these helpers holds whatever the
    float operations compute. *)

(** The float operations that the helpers use, and the constant
    [PASS_UNUSED] of the kernel types. *)
Record FloatOps := mkFloatOps {
  float : Type;
  float_one : float;
  float_mul : float → float → float;
  float_div : float → float → float;
  float_sub : float → float → float;
  float_saturate : float → float;
  float_of_uint : Z → float;
  (** [*((const uint * ) p)] on a float *)
  float_as_uint : float → Z;
  PASS_UNUSED : Z
}.

(** An integer used as a condition. *)
Definition nonzero (x : Z) : bool := negb (x =? 0)%Z.

Section Film.

Context (ops : FloatOps).

(** The fields of [KernelFilmConvert] read by the helpers. *)
Record KernelFilmConvert := mkKernelFilmConvert {
  pass_offset : Z;
  pass_sample_count : Z;
  pass_use_exposure : Z;
  pass_use_filter : Z;
  scale : float ops;
  exposure : float ops;
  scale_exposure : float ops
}.

(** [buffer + offset] is read as the element at [offset]. *)
Definition film_get_scale (kfilm_convert : KernelFilmConvert)
    (buffer : Z → float ops) : float ops :=
  if decide (pass_sample_count kfilm_convert = PASS_UNUSED ops) then
    scale kfilm_convert
  else if nonzero (pass_use_filter kfilm_convert) then
    let sample_count :=
      float_as_uint ops (buffer (pass_sample_count kfilm_convert)) in
    float_div ops (float_one ops) (float_of_uint ops sample_count)
  else float_one ops.

Definition film_get_scale_exposure (kfilm_convert : KernelFilmConvert)
    (buffer : Z → float ops) : float ops :=
  if decide (pass_sample_count kfilm_convert = PASS_UNUSED ops) then
    scale_exposure kfilm_convert
  else
    let scale := film_get_scale kfilm_convert buffer in
    if nonzero (pass_use_exposure kfilm_convert) then
      float_mul ops scale (exposure kfilm_convert)
    else scale.

(** The two results written through [scale] and [scale_exposure]. *)
Definition film_get_scale_and_scale_exposure
    (kfilm_convert : KernelFilmConvert) (buffer : Z → float ops)
  : float ops * float ops :=
  if decide (pass_sample_count kfilm_convert = PASS_UNUSED ops) then
    (scale kfilm_convert, scale_exposure kfilm_convert)
  else
    let scale :=
      if nonzero (pass_use_filter kfilm_convert) then
        let sample_count :=
          float_as_uint ops (buffer (pass_sample_count kfilm_convert)) in
        float_div ops (float_one ops) (float_of_uint ops sample_count)
      else float_one ops in
    let scale_exposure :=
      if nonzero (pass_use_exposure kfilm_convert) then
        float_mul ops scale (exposure kfilm_convert)
      else scale in
    (scale, scale_exposure).

(** [kernel_assert] *)
Definition kernel_assert (b : bool) : result unit := BLI_assert b.

Definition film_transparency_to_alpha (transparency : float ops) : float ops :=
  float_saturate ops (float_sub ops (float_one ops) transparency).

(** The pixel helpers return the channels that they write to [pixel], in
    order. *)
Definition film_get_pass_pixel_float3 (kfilm_convert : KernelFilmConvert)
    (buffer : Z → float ops) : result (list (float ops)) :=
  _ ← kernel_assert
        (bool_decide (pass_offset kfilm_convert ≠ PASS_UNUSED ops));
  let scale_exposure := film_get_scale_exposure kfilm_convert buffer in
  let inp j := buffer (pass_offset kfilm_convert + j)%Z in
  Ok [float_mul ops (inp 0%Z) scale_exposure;
      float_mul ops (inp 1%Z) scale_exposure;
      float_mul ops (inp 2%Z) scale_exposure].

Definition film_get_pass_pixel_float4 (kfilm_convert : KernelFilmConvert)
    (buffer : Z → float ops) : result (list (float ops)) :=
  _ ← kernel_assert
        (bool_decide (pass_offset kfilm_convert ≠ PASS_UNUSED ops));
  let '(scale, scale_exposure) :=
    film_get_scale_and_scale_exposure kfilm_convert buffer in
  let inp j := buffer (pass_offset kfilm_convert + j)%Z in
  Ok [float_mul ops (inp 0%Z) scale_exposure;
      float_mul ops (inp 1%Z) scale_exposure;
      float_mul ops (inp 2%Z) scale_exposure;
      float_mul ops (inp 3%Z) scale].

(** [pixel[3] = film_transparency_to_alpha(pixel[3])] after the channels of
    the float4 pass are written. *)
Definition film_get_pass_pixel_combined (kfilm_convert : KernelFilmConvert)
    (buffer : Z → float ops) : result (list (float ops)) :=
  pixel ← film_get_pass_pixel_float4 kfilm_convert buffer;
  transparency ← defined (pixel !! 3);
  Ok (<[3 := film_transparency_to_alpha transparency]> pixel).

End Film.

(** * Properties *)

Section Structure.

Lemma subfields_unfold f :
  subfields f = f :: (inputs_of (source f) ≫= subfields).
Proof. destruct f as [[]]; reflexivity. Qed.

Lemma height_input_lt i s :
  i ∈ inputs_of s → height (source i) < height s.
Proof.
  destruct s as [|a fn ins]; simpl; [by intros ?%elem_of_nil|].
  induction ins as [|j ins IH]; simpl; [by intros ?%elem_of_nil|].
  intros [->|Hin]%elem_of_cons; [lia|]. specialize (IH Hin). lia.
Qed.

Lemma subfields_trans f g : g ∈ subfields f → subfields g ⊆ subfields f.
Proof.
  remember (height (source f)) as n eqn:Hn.
  revert f g Hn. induction (lt_wf n) as [n _ IH]. intros f g -> Hg.
  rewrite subfields_unfold in Hg. apply elem_of_cons in Hg as [->|Hg]; [done|].
  apply list_elem_of_bind in Hg as (j & Hg & Hj).
  intros x Hx. rewrite subfields_unfold. apply elem_of_cons. right.
  apply list_elem_of_bind. exists j. split; [|done].
  eapply (IH (height (source j))); [by apply height_input_lt|done|done|done].
Qed.

Lemma subfields_self f : f ∈ subfields f.
Proof. rewrite subfields_unfold. apply elem_of_cons; by left. Qed.

Lemma all_fields_root fields f : f ∈ fields → f ∈ all_fields fields.
Proof.
  intros Hf. apply list_elem_of_bind. exists f. split; [apply subfields_self|done].
Qed.

Lemma all_fields_input fields f i :
  f ∈ all_fields fields → i ∈ inputs_of (source f) → i ∈ all_fields fields.
Proof.
  intros (r & Hf & Hr)%list_elem_of_bind Hi.
  apply list_elem_of_bind. exists r. split; [|done].
  apply (subfields_trans r f Hf). rewrite subfields_unfold.
  apply elem_of_cons. right. apply list_elem_of_bind. exists i.
  split; [apply subfields_self|done].
Qed.

End Structure.

#[local] Set Warnings "-clear-no-such-hyp".

Section Build.

Implicit Types (M : VariableMap) (P : MFProcedure) (f i g : GField).

Lemma contains_true M a : contains M a = true ↔ a ∈ dom M.
Proof. unfold contains. rewrite bool_decide_eq_true. by rewrite elem_of_dom. Qed.

Lemma contains_false M a : contains M a = false ↔ M !! a = None.
Proof.
  unfold contains. rewrite bool_decide_eq_false. by rewrite eq_None_not_Some.
Qed.

Lemma get_field_variable_elem f M v :
  get_field_variable f M = Some v → ∃ vs, M !! addr_of f = Some vs ∧ v ∈ vs.
Proof.
  unfold get_field_variable. destruct (source f) as [a ? ?|a ? ?]; simpl;
    destruct (M !! a) as [vs|]; simpl; try done; intros Hv; exists vs;
    split; try done.
  - destruct vs; simplify_eq/=. apply elem_of_cons; by left.
  - by eapply list_elem_of_lookup_2.
Qed.

Lemma get_field_variable_mono f M M' v :
  M ⊆ M' → get_field_variable f M = Some v → get_field_variable f M' = Some v.
Proof.
  intros Hsub. unfold get_field_variable.
  destruct (source f) as [a ? ?|a ? ?]; simpl;
    destruct (M !! a) as [vs|] eqn:Ha; simpl; try done;
    by rewrite (lookup_weaken _ _ _ _ Ha Hsub).
Qed.

Lemma mapM_get_field_variable_mono (l : list GField) M M' vs :
  M ⊆ M' →
  mapM (λ i, get_field_variable i M) l = Some vs →
  mapM (λ i, get_field_variable i M') l = Some vs.
Proof.
  intros Hsub. rewrite !mapM_Some. intros H. eapply Forall2_impl; [done|].
  intros. by eapply get_field_variable_mono.
Qed.

Lemma emitted_mono M M' f instr : M ⊆ M' → emitted M f instr → emitted M' f instr.
Proof.
  intros Hsub. unfold emitted. destruct (source f) as [a ? ?|a fn ins].
  - intros (v & Hv & ->). exists v. split; [|done]. by eapply lookup_weaken.
  - intros (vs & outs & Ha & Hlen & Hvs & ->). exists vs, outs.
    split_and!; try done; [by eapply lookup_weaken|].
    by eapply mapM_get_field_variable_mono.
Qed.

Lemma height_le_max fields f :
  f ∈ all_fields fields → height (source f) ≤ max_height fields.
Proof.
  unfold max_height. induction (all_fields fields) as [|g l IH].
  - by intros ?%elem_of_nil.
  - rewrite fmap_cons. cbn [foldr].
    intros [->|Hin]%elem_of_cons; [lia|]. specialize (IH Hin). lia.
Qed.

Lemma address_reachable fields f :
  f ∈ all_fields fields → addr_of f ∈ all_addresses fields.
Proof.
  intros Hf. unfold all_addresses. apply elem_of_list_to_set.
  apply list_elem_of_fmap. by exists f.
Qed.

Lemma unresolved_insert fields M a vs :
  a ∈ all_addresses fields → M !! a = None →
  S (unresolved fields (<[a := vs]> M)) = unresolved fields M.
Proof.
  intros Ha Hnone. unfold unresolved. rewrite dom_insert_L.
  assert (a ∉ dom M) as Hnd by by apply not_elem_of_dom.
  assert (all_addresses fields ∖ dom M
          = {[a]} ∪ all_addresses fields ∖ ({[a]} ∪ dom M)) as ->.
  { apply set_eq. intros x.
    rewrite elem_of_union, !elem_of_difference, elem_of_union, elem_of_singleton.
    destruct (decide (x = a)) as [->|]; naive_solver. }
  rewrite (size_union {[a]}).
  - by rewrite size_singleton.
  - intros x. rewrite elem_of_singleton, elem_of_difference, elem_of_union,
      elem_of_singleton. naive_solver.
Qed.

Lemma produced_cons instr instrs :
  produced (instr :: instrs) = produced_by instr ∪ produced instrs.
Proof. reflexivity. Qed.

Lemma produced_app l1 l2 : produced (l1 ++ l2) = produced l1 ∪ produced l2.
Proof.
  unfold produced. rewrite fmap_app. apply leibniz_equiv, union_list_app.
Qed.

Lemma validate_from_app S l1 l2 :
  validate_from S (l1 ++ l2)
  = validate_from S l1 && validate_from (produced l1 ∪ S) l2.
Proof.
  revert S. induction l1 as [|instr l1 IH]; intros S.
  - simpl. f_equal. unfold produced. simpl. apply leibniz_equiv.
    by rewrite (left_id ∅ (∪)).
  - rewrite produced_cons.
    assert (∀ X Y : gset Var, Y ∪ (X ∪ S) = X ∪ Y ∪ S) as Hre.
    { intros X Y. apply set_eq. intros x. rewrite !elem_of_union. tauto. }
    destruct instr as [v ty name|fn ins outs|v| |v]; simpl; rewrite IH; simpl;
      rewrite ?Hre, ?(left_id_L ∅ (∪)), ?andb_assoc; done.
Qed.

Lemma inv_variable_bound fields order stack P M a vs v :
  build_inv fields order stack P M →
  M !! a = Some vs → v ∈ vs → v < num_variables P.
Proof.
  intros Hinv Ha Hv.
  assert (a ∈ dom M) as Hd by (apply elem_of_dom; eauto).
  rewrite (inv_dom _ _ _ _ _ Hinv) in Hd. apply elem_of_list_to_set in Hd.
  apply list_elem_of_fmap in Hd as (g & -> & Hg).
  assert (v ∈ mjoin (variables_of M <$> order)) as Hc.
  { apply list_elem_of_join. exists vs. split; [done|].
    apply list_elem_of_fmap. exists g. split; [|done].
    unfold variables_of. by rewrite Ha. }
  rewrite (inv_vars _ _ _ _ _ Hinv) in Hc. apply elem_of_seq in Hc. lia.
Qed.

Lemma inv_pop fields order f stack P M :
  build_inv fields order (f :: stack) P M → addr_of f ∈ dom M →
  build_inv fields order stack P M.
Proof.
  intros [Iinstrs Idom Inodup Iorder Istack Ibefore Ivars Iseeds Ivalid Iprod] Hd.
  split; try done.
  - intros g Hg. apply Istack. apply elem_of_cons. by right.
  - intros g Hg. destruct (Iseeds g Hg) as [?|[->|?]%elem_of_cons]; auto.
Qed.

Lemma inv_push fields order f i stack P M :
  build_inv fields order (f :: stack) P M → i ∈ inputs_of (source f) →
  build_inv fields order (i :: f :: stack) P M.
Proof.
  intros [Iinstrs Idom Inodup Iorder Istack Ibefore Ivars Iseeds Ivalid Iprod] Hi.
  split; try done.
  - intros g [->|Hg]%elem_of_cons; [|by auto].
    eapply all_fields_input; [|done]. apply Istack, elem_of_cons; by left.
  - intros g Hg. destruct (Iseeds g Hg); auto. right. apply elem_of_cons; auto.
Qed.

Lemma inv_extend fields order f stack P M instr k :
  build_inv fields order (f :: stack) P M →
  M !! addr_of f = None →
  (∀ i, i ∈ inputs_of (source f) → addr_of i ∈ dom M) →
  let vs := seq (num_variables P) k in
  let M' := <[addr_of f := vs]> M in
  emitted M' f instr →
  produced_by instr = list_to_set vs →
  validate_from (list_to_set (seq 0 (num_variables P))) [instr] = true →
  build_inv fields (order ++ [f]) stack
    (mkProcedure (instructions P ++ [instr]) (num_variables P + k)) M'.
Proof.
  intros Hinv Hnone Hdeps vs M' Hem Hprod Hval.
  assert (M ⊆ M') as Hsub by by apply insert_subseteq.
  assert (addr_of f ∉ dom M) as Hnd by by apply not_elem_of_dom.
  pose proof Hinv as
    [Iinstrs Idom Inodup Iorder Istack Ibefore Ivars Iseeds Ivalid Iprod].
  split; simpl.
  - apply Forall2_app; [|by repeat constructor].
    eapply Forall2_impl; [done|]. intros. by eapply emitted_mono.
  - unfold M'. rewrite dom_insert_L, fmap_app, list_to_set_app_L, Idom.
    simpl. apply set_eq. intros x.
    rewrite !elem_of_union, elem_of_singleton, elem_of_empty. naive_solver.
  - rewrite fmap_app. apply NoDup_app. split_and!; [done| |by apply NoDup_singleton].
    intros x Hx ->%list_elem_of_singleton. apply Hnd. rewrite Idom.
    by apply elem_of_list_to_set.
  - intros g [Hg| ->%list_elem_of_singleton]%elem_of_app; [by auto|].
    apply Istack, elem_of_cons; by left.
  - intros g Hg. apply Istack, elem_of_cons; by right.
  - intros j g i Hj Hi. apply lookup_app_Some in Hj as [Hj|[Hlen Hj]].
    + destruct (Ibefore j g i Hj Hi) as (j' & g' & ? & Hj' & ?).
      exists j', g'. split_and!; try done. by apply lookup_app_l_Some.
    + apply list_lookup_singleton_Some in Hj as [Hj ->].
      specialize (Hdeps i Hi). rewrite Idom in Hdeps.
      apply elem_of_list_to_set, list_elem_of_fmap in Hdeps as (g' & Hg' & Hin).
      apply list_elem_of_lookup in Hin as [j' Hj'].
      exists j', g'. split_and!; [|by apply lookup_app_l_Some|done].
      apply lookup_lt_Some in Hj'. lia.
  - rewrite fmap_app, join_app. simpl. rewrite app_nil_r.
    rewrite seq_app. f_equal.
    + rewrite <-Ivars. f_equal. apply list_fmap_ext.
      intros ? g Hg%list_elem_of_lookup_2. unfold variables_of, M'.
      rewrite lookup_insert_ne; [done|]. intros Heq. apply Hnd.
      rewrite Idom. apply elem_of_list_to_set, list_elem_of_fmap.
      exists g. by rewrite Heq.
    + unfold variables_of, M'. by rewrite lookup_insert_eq.
  - intros g Hg. unfold M'. rewrite dom_insert_L.
    destruct (Iseeds g Hg) as [?|[->|?]%elem_of_cons]; [left|left|by right];
      set_solver.
  - rewrite validate_from_app, Ivalid, Iprod. simpl.
    by rewrite (right_id_L ∅ (∪)).
  - rewrite produced_app, Iprod. unfold produced. simpl.
    rewrite Hprod, seq_app, list_to_set_app_L. simpl.
    by rewrite (right_id_L ∅ (∪)).
Qed.

Lemma inv_emitted fields order stack P M i :
  identity_consistent fields →
  build_inv fields order stack P M →
  i ∈ all_fields fields → addr_of i ∈ dom M →
  ∃ g instr, g ∈ order ∧ source g = source i ∧ instr ∈ instructions P ∧
    emitted M g instr.
Proof.
  intros Hid Hinv Hi Hd. rewrite (inv_dom _ _ _ _ _ Hinv) in Hd.
  apply elem_of_list_to_set, list_elem_of_fmap in Hd as (g & Haddr & Hg).
  pose proof Hg as [k Hk]%list_elem_of_lookup.
  destruct (Forall2_lookup_l _ _ _ _ _ (inv_instrs _ _ _ _ _ Hinv) Hk)
    as (instr & Hinstr & Hem).
  exists g, instr. split_and!; try done.
  - symmetry. apply Hid; [done| |done]. by eapply inv_order.
  - by eapply list_elem_of_lookup_2.
Qed.

Lemma resolved_variable fields order stack P M i :
  identity_consistent fields → indices_in_range fields →
  build_inv fields order stack P M →
  i ∈ all_fields fields → addr_of i ∈ dom M →
  is_Some (get_field_variable i M).
Proof.
  intros Hid Hidx Hinv Hi Hd.
  destruct (inv_emitted _ _ _ _ _ _ Hid Hinv Hi Hd) as (g & instr & _ & Hsrc & _ & Hem).
  unfold emitted in Hem. rewrite Hsrc in Hem. unfold get_field_variable.
  destruct (source i) as [a name d|a fn ins] eqn:Hs.
  - destruct Hem as (v & -> & _). by eexists.
  - destruct Hem as (vs & outs & -> & Hlen & _). simpl.
    apply lookup_lt_is_Some. rewrite Hlen. by eapply Hidx.
Qed.

Lemma top_weight_bound fields stack M :
  (∀ f, f ∈ stack → f ∈ all_fields fields) →
  top_weight fields stack M ≤ 2 * max_height fields + 2.
Proof.
  destruct stack as [|f stack]; simpl; [lia|]. intros Hst.
  destruct (contains M (addr_of f)); [lia|].
  pose proof (height_le_max fields f (Hst f ltac:(by left))). lia.
Qed.

Lemma visit_top_step fields order f stack P M :
  identity_consistent fields → indices_in_range fields →
  build_inv fields order (f :: stack) P M →
  ∃ order' stack' P' M',
    visit_top f (f :: stack) P M = Ok (stack', P', M') ∧
    build_inv fields order' stack' P' M' ∧
    potential fields stack' M' < potential fields (f :: stack) M.
Proof.
  intros Hid Hidx Hinv.
  assert (f ∈ all_fields fields) as Hf
    by (eapply inv_stack; [done|by left]).
  unfold visit_top. destruct (contains M (addr_of f)) eqn:Hc.
  { (* already handled *)
    apply contains_true in Hc.
    exists order, stack, P, M. split_and!; [done|by eapply inv_pop|].
    unfold potential. cbn [top_weight length tail].
    apply contains_true in Hc. rewrite Hc.
    assert (top_weight fields stack M ≤ 2 * max_height fields + 2) as Hb.
    { apply top_weight_bound. intros g Hg. eapply inv_stack; [done|by right]. }
    lia. }
  apply contains_false in Hc.
  assert (∀ vs, potential fields stack (<[addr_of f := vs]> M)
                < potential fields (f :: stack) M) as Hpot.
  { intros vs. unfold potential.
    rewrite <-(unresolved_insert fields M (addr_of f) vs);
      [|by apply address_reachable|done].
    assert (top_weight fields stack (<[addr_of f := vs]> M)
            ≤ 2 * max_height fields + 2) as Hb.
    { apply top_weight_bound. intros g Hg. eapply inv_stack; [done|by right]. }
    cbn [length]. lia. }
  unfold is_input, add_variables_for_input, add_variables_for_operation.
  destruct (source f) as [a name d|a fn ins] eqn:Hs; simpl in Hc |- *.
  { (* an input *)
    unfold map_add. rewrite Hc.
    eexists (order ++ [f]), stack, _, _. split; [done|]. split.
    - pose proof (inv_extend fields order f stack P M
        (IInputParam (num_variables P) (cpp_type f) name) 1 Hinv) as Hext.
      rewrite Hs in Hext. simpl in Hext. rewrite Nat.add_1_r in Hext.
      apply Hext; try done.
      + by intros i ?%elem_of_nil.
      + unfold emitted. rewrite Hs. eexists. by rewrite lookup_insert_eq.
      + by rewrite (right_id_L ∅ (∪)).
    - apply Hpot. }
  (* an operation *)
  destruct (find _ ins) as [i|] eqn:Hfind.
  { (* blocked on [i] *)
    apply find_some in Hfind as [Hi%list_elem_of_In Hni].
    apply negb_true_iff, contains_false in Hni.
    exists order, (i :: f :: stack), P, M. split_and!; [done| |].
    - apply inv_push; [done|]. by rewrite Hs.
    - unfold potential. cbn [top_weight length].
      assert (contains M (addr_of i) = false) as -> by by apply contains_false.
      assert (contains M (addr_of f) = false) as ->
        by (apply contains_false; by rewrite Hs).
      pose proof (height_input_lt i (source f)) as Hh.
      rewrite Hs in Hh. specialize (Hh Hi). rewrite Hs. lia. }
  (* all inputs resolved *)
  assert (∀ i, i ∈ ins → addr_of i ∈ dom M) as Hdeps.
  { intros i Hi. apply contains_true.
    pose proof (find_none _ _ Hfind i (proj1 (list_elem_of_In _ _) Hi)) as Hn.
    by apply negb_false_iff in Hn. }
  destruct (mapM (λ i, get_field_variable i M) ins) as [vs|] eqn:Hvs; last first.
  { exfalso. apply eq_None_not_Some in Hvs. apply Hvs, mapM_is_Some.
    apply Forall_forall. intros i Hi.
    eapply resolved_variable; [done..| |by auto].
    eapply all_fields_input; [done|]. by rewrite Hs. }
  simpl. rewrite Hc. simpl.
  eexists (order ++ [f]), stack, _, _. split; [done|]. split.
  - pose proof (inv_extend fields order f stack P M
      (ICall fn vs (seq (num_variables P) (mf_outputs fn))) (mf_outputs fn) Hinv)
      as Hext.
    rewrite Hs in Hext. simpl in Hext. apply Hext; try done.
    + unfold emitted. rewrite Hs. exists vs, (seq (num_variables P) (mf_outputs fn)).
      split_and!; [by rewrite lookup_insert_eq|by rewrite length_seq| |done].
      eapply mapM_get_field_variable_mono; [|done]. by apply insert_subseteq.
    + rewrite andb_true_r. apply forallb_forall. intros v Hv%list_elem_of_In.
      apply bool_decide_eq_true, elem_of_list_to_set, elem_of_seq.
      split; [lia|]. simpl.
      apply mapM_Some in Hvs.
      apply list_elem_of_lookup in Hv as [k Hk].
      destruct (Forall2_lookup_r _ _ _ _ _ Hvs Hk) as (i & _ & Hgv).
      apply get_field_variable_elem in Hgv as (ws & Hws & Hin).
      by eapply inv_variable_bound.
  - apply Hpot.
Qed.

Lemma visit_loop_returns fields :
  identity_consistent fields → indices_in_range fields →
  ∀ fuel order stack P M,
    build_inv fields order stack P M →
    potential fields stack M < fuel →
    ∃ order' P' M',
      visit_loop fuel stack P M = Ok (P', M') ∧
      build_inv fields order' [] P' M'.
Proof.
  intros Hid Hidx fuel. induction fuel as [|fuel IH]; intros order stack P M Hinv Hpot.
  { lia. }
  destruct stack as [|f stack]; [by exists order, P, M|].
  destruct (visit_top_step _ _ _ _ _ _ Hid Hidx Hinv)
    as (order' & stack' & P' & M' & Hstep & Hinv' & Hlt).
  simpl. rewrite Hstep. eapply IH; [done|lia].
Qed.

Lemma push_all_rev {A} (xs st : list A) : push_all xs st = reverse xs ++ st.
Proof.
  revert st. induction xs as [|x xs IH]; intros st; [done|].
  simpl. rewrite IH, reverse_cons, <-app_assoc. done.
Qed.

Lemma build_inv_initial fields :
  build_inv fields [] (push_all fields []) empty_procedure ∅.
Proof.
  split; simpl; try done.
  all: try (by constructor). all: try (by rewrite dom_empty_L).
  all: try (by intros f ?%elem_of_nil).
  - intros f Hf. rewrite push_all_rev, app_nil_r in Hf.
    apply elem_of_reverse_2 in Hf. rewrite reverse_involutive in Hf.
    by apply all_fields_root.
  - intros f Hf. right. rewrite push_all_rev, app_nil_r.
    by apply elem_of_reverse_2.
Qed.

Lemma add_unique_variables_returns fields fuel :
  identity_consistent fields → indices_in_range fields →
  build_fuel fields ≤ fuel →
  ∃ order P M,
    add_unique_variables fuel fields empty_procedure ∅ = Ok (P, M) ∧
    build_inv fields order [] P M.
Proof.
  intros Hid Hidx Hfuel. unfold add_unique_variables.
  eapply visit_loop_returns; [done|done|apply build_inv_initial|].
  unfold build_fuel in Hfuel. lia.
Qed.

End Build.


Section Destructs.

Implicit Types (M : VariableMap) (P : MFProcedure) (f i g : GField).

Lemma map_to_list_order fields order stack P M :
  build_inv fields order stack P M →
  map_to_list M ≡ₚ (λ f, (addr_of f, variables_of M f)) <$> order.
Proof.
  intros Hinv. apply NoDup_Permutation.
  - apply NoDup_map_to_list.
  - apply (NoDup_fmap_1 fst). rewrite <-list_fmap_compose.
    apply (inv_nodup _ _ _ _ _ Hinv).
  - intros [a vs]. rewrite elem_of_map_to_list, list_elem_of_fmap. split.
    + intros Ha. assert (a ∈ dom M) as Hd by (apply elem_of_dom; eauto).
      rewrite (inv_dom _ _ _ _ _ Hinv) in Hd.
      apply elem_of_list_to_set, list_elem_of_fmap in Hd as (g & -> & Hg).
      exists g. split; [|done]. unfold variables_of. by rewrite Ha.
    + intros (g & [= -> ->] & Hg).
      assert (addr_of g ∈ dom M) as Hd.
      { rewrite (inv_dom _ _ _ _ _ Hinv).
        apply elem_of_list_to_set, list_elem_of_fmap. by exists g. }
      apply elem_of_dom in Hd as [vs Hvs]. unfold variables_of. by rewrite Hvs.
Qed.

Lemma all_variables_perm fields order stack P M :
  build_inv fields order stack P M →
  all_variables M ≡ₚ seq 0 (num_variables P).
Proof.
  intros Hinv. unfold all_variables.
  rewrite (map_to_list_order _ _ _ _ _ Hinv), <-list_fmap_compose.
  by rewrite <-(inv_vars _ _ _ _ _ Hinv).
Qed.

Lemma foldl_add_destruct (outputs : gset Var) P vars :
  foldl (λ b variable,
           if decide (variable ∈ outputs) then b else add_destruct variable b)
        P vars
  = mkProcedure
      (instructions P ++ (IDestruct <$> filter (λ v, v ∉ outputs) vars))
      (num_variables P).
Proof.
  revert P. induction vars as [|v vars IH]; intros P; simpl.
  - rewrite app_nil_r. by destruct P.
  - rewrite IH. rewrite filter_cons. destruct (decide (v ∈ outputs)) as [Hv|Hv].
    + by rewrite decide_False by auto.
    + rewrite decide_True by done. simpl. by rewrite <-app_assoc.
Qed.

Lemma collect_outputs_ok fields M acc vs :
  Forall (λ f, is_input f = false) fields →
  mapM (λ f, get_field_variable f M) fields = Some vs →
  collect_outputs fields M acc = Ok (list_to_set vs ∪ acc).
Proof.
  intros Hop. revert acc vs.
  induction Hop as [|f fields Hf _ IH]; intros acc vs Hvs.
  - apply mapM_Some, Forall2_nil_inv_l in Hvs as ->. simpl.
    by rewrite (left_id_L ∅ (∪)).
  - apply mapM_Some, Forall2_cons_inv_l in Hvs as (v & vs' & Hv & Hvs & ->).
    apply mapM_Some in Hvs. simpl. rewrite Hf, Hv. simpl.
    rewrite (IH _ _ Hvs). f_equal. apply set_eq. intros x.
    rewrite !elem_of_union, elem_of_singleton. tauto.
Qed.

Lemma add_output_parameters_ok fields P M vs :
  mapM (λ f, get_field_variable f M) fields = Some vs →
  add_output_parameters fields P M
  = Ok (mkProcedure (instructions P ++ (IOutputParam <$> vs)) (num_variables P)).
Proof.
  revert P vs. induction fields as [|f fields IH]; intros P vs Hvs.
  - apply mapM_Some, Forall2_nil_inv_l in Hvs as ->. simpl.
    rewrite app_nil_r. by destruct P.
  - apply mapM_Some, Forall2_cons_inv_l in Hvs as (v & vs' & Hv & Hvs & ->).
    apply mapM_Some in Hvs. simpl. rewrite Hv. simpl.
    rewrite (IH _ _ Hvs). simpl. by rewrite <-app_assoc.
Qed.

Lemma validate_destructs S (vars : list Var) :
  validate_from S (IDestruct <$> vars) = true.
Proof. induction vars; simpl; auto. Qed.

Lemma produced_destructs (vars : list Var) : produced (IDestruct <$> vars) = ∅.
Proof.
  induction vars as [|v vars IH]; [done|].
  rewrite fmap_cons, produced_cons, IH. simpl. by rewrite (left_id_L ∅ (∪)).
Qed.

Lemma validate_output_params S (vs : list Var) :
  (∀ v, v ∈ vs → v ∈ S) → validate_from S (IOutputParam <$> vs) = true.
Proof.
  induction vs as [|v vs IH]; intros Hvs; simpl; [done|].
  rewrite bool_decide_eq_true_2 by (apply Hvs; by left). simpl.
  apply IH. intros w Hw. apply Hvs. by right.
Qed.

Lemma requested_variables fields order P M :
  identity_consistent fields → indices_in_range fields →
  build_inv fields order [] P M →
  ∃ vs, mapM (λ f, get_field_variable f M) fields = Some vs.
Proof.
  intros Hid Hidx Hinv. apply mapM_is_Some, Forall_forall. intros f Hf.
  eapply resolved_variable; [done..|by apply all_fields_root|].
  destruct (inv_seeds _ _ _ _ _ Hinv f Hf) as [?|?%elem_of_nil]; done.
Qed.

(** The shape of what [build_procedure] returns. *)
Lemma build_procedure_returns fields fuel :
  identity_consistent fields → indices_in_range fields →
  Forall (λ f, is_input f = false) fields →
  build_fuel fields ≤ fuel →
  ∃ order P0 M vs,
    add_unique_variables fuel fields empty_procedure ∅ = Ok (P0, M) ∧
    build_inv fields order [] P0 M ∧
    mapM (λ f, get_field_variable f M) fields = Some vs ∧
    build_procedure fuel fields empty_procedure ∅
    = Ok (mkProcedure
            (instructions P0
             ++ (IDestruct <$> filter (λ v, v ∉ vs) (all_variables M))
             ++ [IReturn] ++ (IOutputParam <$> vs))
            (num_variables P0), M).
Proof.
  intros Hid Hidx Hop Hfuel.
  destruct (add_unique_variables_returns fields fuel Hid Hidx Hfuel)
    as (order & P0 & M & Hadd & Hinv).
  destruct (requested_variables _ _ _ _ Hid Hidx Hinv) as [vs Hvs].
  exists order, P0, M, vs. split_and!; try done.
  unfold build_procedure. rewrite Hadd. simpl.
  unfold add_destructs. rewrite (collect_outputs_ok _ _ _ _ Hop Hvs). simpl.
  rewrite foldl_add_destruct. unfold add_return, emit. simpl.
  rewrite (add_output_parameters_ok _ _ _ _ Hvs). simpl.
  rewrite (right_id_L ∅ (∪)).
  assert (filter (λ v, v ∉ (list_to_set vs : gset Var)) (all_variables M)
          = filter (λ v, v ∉ vs) (all_variables M)) as ->.
  { apply list_filter_iff. intros v. by rewrite elem_of_list_to_set. }
  rewrite <-!app_assoc. simpl.
  assert (validate
    {| instructions := instructions P0
         ++ (IDestruct <$> filter (λ v, v ∉ vs) (all_variables M))
         ++ IReturn :: (IOutputParam <$> vs);
       num_variables := num_variables P0 |} = true) as ->; [|done].
  unfold validate. simpl.
  rewrite validate_from_app, (inv_valid _ _ _ _ _ Hinv). simpl.
  rewrite validate_from_app, validate_destructs. simpl.
  apply validate_output_params. intros v Hv.
  rewrite produced_destructs, (inv_produced _ _ _ _ _ Hinv).
  apply elem_of_union. right. apply elem_of_union. left.
  apply elem_of_list_to_set, elem_of_seq. split; [lia|]. simpl.
  apply mapM_Some in Hvs. apply list_elem_of_lookup in Hv as [k Hk].
  destruct (Forall2_lookup_r _ _ _ _ _ Hvs Hk) as (f & _ & Hgv).
  apply get_field_variable_elem in Hgv as (ws & Hws & Hin).
  by eapply inv_variable_bound.
Qed.

End Destructs.


Section BuiltProcedure.

Implicit Types (M : VariableMap) (P : MFProcedure) (f i g : GField).

Lemma resolved_closed fields order P M :
  identity_consistent fields →
  build_inv fields order [] P M →
  ∀ f, f ∈ all_fields fields → addr_of f ∈ dom M.
Proof.
  intros Hid Hinv.
  assert (∀ n r, height (source r) < n → r ∈ all_fields fields →
            addr_of r ∈ dom M → ∀ f, f ∈ subfields r → addr_of f ∈ dom M) as Hsub.
  { induction n as [|n IH]; intros r Hn Hr Hd f Hf; [lia|].
    rewrite subfields_unfold in Hf. apply elem_of_cons in Hf as [->|Hf]; [done|].
    apply list_elem_of_bind in Hf as (j & Hf & Hj).
    assert (height (source j) < height (source r)) by by apply height_input_lt.
    apply (IH j); [lia|by eapply all_fields_input| |done].
    destruct (inv_emitted _ _ _ _ _ _ Hid Hinv Hr Hd) as (g & _ & Hg & Hsrc & _).
    apply list_elem_of_lookup in Hg as [k Hk].
    rewrite <-Hsrc in Hj.
    destruct (inv_before _ _ _ _ _ Hinv k g j Hk Hj) as (k' & g' & _ & Hk' & <-).
    rewrite (inv_dom _ _ _ _ _ Hinv).
    apply elem_of_list_to_set, list_elem_of_fmap. exists g'.
    split; [done|]. by eapply list_elem_of_lookup_2. }
  intros f (r & Hf & Hr)%list_elem_of_bind.
  apply (Hsub (S (height (source r))) r); [lia|by apply all_fields_root| |done].
  destruct (inv_seeds _ _ _ _ _ Hinv r Hr) as [?|?%elem_of_nil]; done.
Qed.


Lemma emitted_is_definition M f instr : emitted M f instr → is_definition instr = true.
Proof.
  unfold emitted. destruct (source f).
  - by intros (v & _ & ->).
  - by intros (vs & outs & _ & _ & _ & ->).
Qed.

Lemma destructs_of_definitions instrs :
  Forall (λ instr, is_definition instr = true) instrs → destructs_of instrs = [].
Proof. induction 1 as [|[] ? ? ? IH]; simpl; try done. Qed.

Lemma output_params_of_definitions instrs :
  Forall (λ instr, is_definition instr = true) instrs → output_params_of instrs = [].
Proof. induction 1 as [|[] ? ? ? IH]; simpl; try done. Qed.

Lemma destructs_of_app l1 l2 :
  destructs_of (l1 ++ l2) = destructs_of l1 ++ destructs_of l2.
Proof. apply omap_app. Qed.

Lemma output_params_of_app l1 l2 :
  output_params_of (l1 ++ l2) = output_params_of l1 ++ output_params_of l2.
Proof. apply omap_app. Qed.

Lemma destructs_of_destructs vars : destructs_of (IDestruct <$> vars) = vars.
Proof. induction vars as [|v vars IH]; [done|]. cbn. by f_equal. Qed.

Lemma destructs_of_output_params vs : destructs_of (IOutputParam <$> vs) = [].
Proof. induction vs; simpl; done. Qed.

Lemma output_params_of_destructs vars : output_params_of (IDestruct <$> vars) = [].
Proof. induction vars; simpl; done. Qed.

Lemma output_params_of_output_params vs : output_params_of (IOutputParam <$> vs) = vs.
Proof. induction vs as [|v vs IH]; [done|]. cbn. by f_equal. Qed.

Lemma inv_definitions fields order stack P M :
  build_inv fields order stack P M →
  Forall (λ instr, is_definition instr = true) (instructions P).
Proof.
  intros Hinv. apply Forall_forall. intros instr [k Hk]%list_elem_of_lookup.
  destruct (Forall2_lookup_r _ _ _ _ _ (inv_instrs _ _ _ _ _ Hinv) Hk)
    as (g & _ & Hem).
  by eapply emitted_is_definition.
Qed.

Lemma validate_from_sound X instrs k fn ins outs v :
  validate_from X instrs = true →
  instrs !! k = Some (ICall fn ins outs) → v ∈ ins →
  v ∈ X ∨ ∃ j instr, j < k ∧ instrs !! j = Some instr ∧ v ∈ produced_by instr.
Proof.
  revert X k. induction instrs as [|instr instrs IH]; intros X k Hval Hk Hv.
  { by rewrite lookup_nil in Hk. }
  destruct k as [|k].
  { simpl in Hk. simplify_eq. simpl in Hval.
    apply andb_true_iff in Hval as [Hins _]. left.
    rewrite forallb_forall in Hins.
    specialize (Hins v (proj1 (list_elem_of_In _ _) Hv)).
    by apply bool_decide_eq_true in Hins. }
  simpl in Hk.
  assert (∃ X', validate_from X' instrs = true ∧
            ∀ x, x ∈ X' → x ∈ X ∨ x ∈ produced_by instr) as (X' & Hval' & HX').
  { destruct instr as [w ty name|fn' ins' outs'|w| |w]; simpl in Hval |- *.
    - eexists. split; [done|]. intros x [?|?]%elem_of_union; auto.
    - apply andb_true_iff in Hval as [_ Hval]. eexists. split; [done|].
      intros x [?|?]%elem_of_union; auto.
    - exists X. auto.
    - exists X. auto.
    - apply andb_true_iff in Hval as [_ Hval]. exists X. auto. }
  destruct (IH X' k Hval' Hk Hv) as [Hin|(j & instr' & Hj & Hl & Hp)].
  - destruct (HX' v Hin) as [?|?]; [by left|].
    right. exists 0, instr. split_and!; [lia|done|done].
  - right. exists (S j), instr'. split_and!; [lia|done|done].
Qed.

Lemma build_procedure_valid fuel fields P0 M0 P M :
  build_procedure fuel fields P0 M0 = Ok (P, M) → validate P = true.
Proof.
  unfold build_procedure.
  destruct (add_unique_variables fuel fields P0 M0) as [[b1 M1]|]; simpl; [|done].
  destruct (add_destructs fields b1 M1) as [b2|]; simpl; [|done].
  destruct (add_output_parameters fields (add_return b2) M1) as [b3|]; simpl; [|done].
  destruct (validate b3) eqn:Hv; simpl; [|done]. by intros [= <- <-].
Qed.

End BuiltProcedure.


(** Case analysis on the membership of a field in a concrete list. *)
Ltac field_cases H :=
  vm_compute in H;
  repeat (apply elem_of_cons in H as [->|H]);
  [..|by apply elem_of_nil in H].

Ltac solve_identity :=
  let f1 := fresh "f" in let f2 := fresh "f" in
  let H1 := fresh "H" in let H2 := fresh "H" in let Heq := fresh "Heq" in
  intros f1 f2 H1 H2 Heq; field_cases H1; field_cases H2;
  first [reflexivity | discriminate Heq].

Ltac solve_indices :=
  let f := fresh "f" in let H := fresh "H" in let Hs := fresh "Hs" in
  intros f ? ? ? H Hs; field_cases H; vm_compute in Hs;
  first [discriminate Hs | injection Hs as <- <- <-; vm_compute; lia].

Ltac solve_operations := repeat constructor.

Ltac solve_fuel := vm_compute; lia.

Section Claims.

Implicit Types (M : VariableMap) (P : MFProcedure) (f i g : GField).

Lemma NoDup_fmap_filter {A B} (h : A → B) (Q : A → Prop)
    `{!∀ x, Decision (Q x)} (l : list A) :
  NoDup (h <$> l) → NoDup (h <$> filter Q l).
Proof.
  induction l as [|x l IH]; [done|]. rewrite fmap_cons, NoDup_cons.
  intros [Hx Hl]. rewrite filter_cons. destruct (decide (Q x)); [|by auto].
  rewrite fmap_cons, NoDup_cons. split; [|by auto].
  intros (y & Hy & [_ Hin]%list_elem_of_filter)%list_elem_of_fmap.
  apply Hx, list_elem_of_fmap. by exists y.
Qed.

Lemma emitted_kind M f instr :
  emitted M f instr →
  is_input_param instr = is_input f ∧ is_call instr = negb (is_input f).
Proof.
  unfold emitted, is_input. destruct (source f).
  - by intros (v & _ & ->).
  - by intros (vs & outs & _ & _ & _ & ->).
Qed.

Lemma emitted_counts M order defs :
  Forall2 (emitted M) order defs →
  length (filter (λ instr, is_input_param instr = true) defs)
  = length (filter (λ f, is_input f = true) order) ∧
  length (filter (λ instr, is_call instr = true) defs)
  = length (filter (λ f, is_input f = false) order).
Proof.
  induction 1 as [|f instr order defs Hem _ [IH1 IH2]]; [done|].
  apply emitted_kind in Hem as [Hp Hc]. rewrite !filter_cons, Hp, Hc.
  destruct (is_input f); simpl; rewrite ?IH1, ?IH2; done.
Qed.

Lemma count_not_definitions rest :
  Forall (λ instr, is_definition instr = false) rest →
  filter (λ instr, is_input_param instr = true) rest = [] ∧
  filter (λ instr, is_call instr = true) rest = [].
Proof.
  induction 1 as [|instr rest Hd _ [IH1 IH2]]; [done|].
  rewrite !filter_cons, IH1, IH2. by destruct instr.
Qed.

Lemma order_addresses fields order P M (b : bool) :
  identity_consistent fields →
  build_inv fields order [] P M →
  length (filter (λ f, is_input f = b) order)
  = size (list_to_set ((λ f, addr_of f)
            <$> filter (λ f, is_input f = b) (all_fields fields)) : gset nat).
Proof.
  intros Hid Hinv.
  assert ((list_to_set ((λ f, addr_of f)
             <$> filter (λ f, is_input f = b) (all_fields fields)) : gset nat)
          = list_to_set ((λ f, addr_of f)
              <$> filter (λ f, is_input f = b) order)) as ->.
  { apply set_eq. intros a. rewrite !elem_of_list_to_set, !list_elem_of_fmap.
    split.
    - intros (f & -> & [Hb Hf]%list_elem_of_filter).
      pose proof (resolved_closed _ _ _ _ Hid Hinv f Hf) as Hd.
      destruct (inv_emitted _ _ _ _ _ _ Hid Hinv Hf Hd)
        as (g & _ & Hg & Hsrc & _).
      exists g. rewrite Hsrc. split; [done|]. apply list_elem_of_filter.
      split; [|done]. unfold is_input in *. by rewrite Hsrc.
    - intros (g & -> & [Hb Hg]%list_elem_of_filter).
      exists g. split; [done|]. apply list_elem_of_filter. split; [done|].
      by eapply inv_order. }
  rewrite size_list_to_set, length_fmap; [done|].
  apply NoDup_fmap_filter. by eapply inv_nodup.
Qed.



(** C10 (recorded variables).  After a build, the map entry of every
    reachable operation is the output list of one call of its function in
    the procedure, as long as the output arity of the function, and a field
    on that operation resolves to the element of that list at its output
    index; the entry of every reachable input is the single variable of an
    input-parameter declaration, to which a field on that input resolves. *)
Theorem recorded_variables fields fuel :
  identity_consistent fields → indices_in_range fields →
  Forall (λ f, is_input f = false) fields →
  build_fuel fields ≤ fuel →
  ∃ P M,
    build_procedure fuel fields empty_procedure ∅ = Ok (P, M) ∧
    ∀ f, f ∈ all_fields fields →
      match source f with
      | FieldInput a name _ =>
          ∃ v ty, M !! a = Some [v] ∧
            IInputParam v ty name ∈ instructions P ∧
            get_field_variable f M = Some v
      | FieldOperation a fn inputs =>
          ∃ vs outs, M !! a = Some outs ∧
            ICall fn vs outs ∈ instructions P ∧
            length outs = mf_outputs fn ∧
            is_Some (outs !! source_output_index f) ∧
            get_field_variable f M = outs !! source_output_index f
      end.
Proof.
  intros Hid Hidx Hop Hfuel.
  destruct (build_procedure_returns fields fuel Hid Hidx Hop Hfuel)
    as (order & P0 & M & vs & _ & Hinv & _ & Hbuild).
  eexists _, M. split; [exact Hbuild|]. intros f Hf. simpl.
  pose proof (resolved_closed _ _ _ _ Hid Hinv f Hf) as Hd.
  destruct (inv_emitted _ _ _ _ _ _ Hid Hinv Hf Hd)
    as (g & instr & _ & Hsrc & Hinstr & Hem).
  unfold emitted in Hem. rewrite Hsrc in Hem.
  unfold get_field_variable.
  destruct (source f) as [a name d|a fn ins] eqn:Hs.
  - destruct Hem as (v & Hv & ->). exists v, (cpp_type g).
    split_and!; [done|by apply elem_of_app; left|by rewrite Hv].
  - destruct Hem as (ws & outs & Hv & Hlen & _ & ->). exists ws, outs.
    split_and!; [done|by apply elem_of_app; left|done| |by rewrite Hv].
    apply lookup_lt_is_Some. rewrite Hlen. by eapply Hidx.
Qed.

Lemma recorded_variables_witness :
  ∃ P M,
    build_procedure 100 Samples.half_request empty_procedure ∅ = Ok (P, M) ∧
    ∀ f, f ∈ all_fields Samples.half_request →
      match source f with
      | FieldInput a name _ =>
          ∃ v ty, M !! a = Some [v] ∧
            IInputParam v ty name ∈ instructions P ∧
            get_field_variable f M = Some v
      | FieldOperation a fn inputs =>
          ∃ vs outs, M !! a = Some outs ∧
            ICall fn vs outs ∈ instructions P ∧
            length outs = mf_outputs fn ∧
            is_Some (outs !! source_output_index f) ∧
            get_field_variable f M = outs !! source_output_index f
      end.
Proof.
  apply (recorded_variables Samples.half_request 100);
    [solve_identity|solve_indices|solve_operations|solve_fuel].
Defined.

(** C5 (validation law).  A build of operation-rooted fields over a
    consistent graph returns, and the procedure it returns passes the
    structural validation; in particular every variable that a call reads
    is produced by a strictly earlier instruction (an input-parameter
    declaration or a call). *)
Theorem validation_law fields fuel :
  identity_consistent fields → indices_in_range fields →
  Forall (λ f, is_input f = false) fields →
  build_fuel fields ≤ fuel →
  ∃ P M,
    build_procedure fuel fields empty_procedure ∅ = Ok (P, M) ∧
    validate P = true ∧
    ∀ k fn ins outs v,
      instructions P !! k = Some (ICall fn ins outs) → v ∈ ins →
      ∃ j instr, j < k ∧ instructions P !! j = Some instr ∧
        v ∈ produced_by instr.
Proof.
  intros Hid Hidx Hop Hfuel.
  destruct (build_procedure_returns fields fuel Hid Hidx Hop Hfuel)
    as (order & P0 & M & vs & _ & _ & _ & Hbuild).
  pose proof (build_procedure_valid _ _ _ _ _ _ Hbuild) as Hvalid.
  eexists _, M. split; [exact Hbuild|]. split; [done|].
  intros k fn ins outs v Hk Hv.
  destruct (validate_from_sound _ _ _ _ _ _ _ Hvalid Hk Hv) as [?%elem_of_empty|?];
    done.
Qed.

Lemma validation_law_witness :
  ∃ P M,
    build_procedure 100 Samples.shared_request empty_procedure ∅ = Ok (P, M) ∧
    validate P = true ∧
    ∀ k fn ins outs v,
      instructions P !! k = Some (ICall fn ins outs) → v ∈ ins →
      ∃ j instr, j < k ∧ instructions P !! j = Some instr ∧
        v ∈ produced_by instr.
Proof.
  apply (validation_law Samples.shared_request 100);
    [solve_identity|solve_indices|solve_operations|solve_fuel].
Defined.

(** C3 (destruct coverage).  In the procedure returned by a build, every
    variable recorded in the map is either declared as an output parameter
    and never destructed, or destructed and never declared as an output
    parameter; no variable is destructed twice; and all the destructs come
    before the one return. *)
Theorem destruct_coverage fields fuel :
  identity_consistent fields → indices_in_range fields →
  Forall (λ f, is_input f = false) fields →
  build_fuel fields ≤ fuel →
  ∃ P M,
    build_procedure fuel fields empty_procedure ∅ = Ok (P, M) ∧
    NoDup (destructs_of (instructions P)) ∧
    (∀ a vs v, M !! a = Some vs → v ∈ vs →
       (v ∈ output_params_of (instructions P)
        ∧ v ∉ destructs_of (instructions P))
       ∨ ((v ∉ output_params_of (instructions P))
          ∧ v ∈ destructs_of (instructions P))) ∧
    ∃ before after,
      instructions P = before ++ (IReturn :: after) ∧
      (IReturn ∉ before) ∧ (IReturn ∉ after) ∧
      destructs_of after = [].
Proof.
  intros Hid Hidx Hop Hfuel.
  destruct (build_procedure_returns fields fuel Hid Hidx Hop Hfuel)
    as (order & P0 & M & vs & _ & Hinv & _ & Hbuild).
  pose proof (inv_definitions _ _ _ _ _ Hinv) as Hdefs.
  pose proof (all_variables_perm _ _ _ _ _ Hinv) as Hperm.
  set (ds := filter (λ v, v ∉ vs) (all_variables M)) in *.
  eexists _, M. split; [exact Hbuild|]. simpl.
  assert (destructs_of (instructions P0 ++ (IDestruct <$> ds)
                        ++ IReturn :: (IOutputParam <$> vs)) = ds) as Hds.
  { rewrite !destructs_of_app, (destructs_of_definitions _ Hdefs),
      destructs_of_destructs. simpl.
    change (ds ++ destructs_of (IOutputParam <$> vs) = ds).
    by rewrite destructs_of_output_params, app_nil_r. }
  assert (output_params_of (instructions P0 ++ (IDestruct <$> ds)
                            ++ IReturn :: (IOutputParam <$> vs)) = vs) as Hvs.
  { rewrite !output_params_of_app, (output_params_of_definitions _ Hdefs),
      output_params_of_destructs. simpl.
    change (output_params_of (IOutputParam <$> vs) = vs).
    by rewrite output_params_of_output_params. }
  rewrite Hds, Hvs. split_and!.
  - unfold ds. apply NoDup_filter. rewrite Hperm. apply NoDup_seq.
  - intros a ws v Ha Hv.
    assert (v ∈ all_variables M) as Hall.
    { unfold all_variables. apply list_elem_of_join. exists ws. split; [done|].
      apply list_elem_of_fmap. exists (a, ws). split; [done|].
      by apply elem_of_map_to_list. }
    destruct (decide (v ∈ vs)) as [Hin|Hout].
    + left. split; [done|]. unfold ds. rewrite list_elem_of_filter. tauto.
    + right. split; [done|]. unfold ds. by rewrite list_elem_of_filter.
  - exists (instructions P0 ++ (IDestruct <$> ds)), (IOutputParam <$> vs).
    split_and!.
    + by rewrite <-app_assoc.
    + intros [Hin|Hin]%elem_of_app.
      * rewrite Forall_forall in Hdefs. by specialize (Hdefs _ Hin).
      * by apply list_elem_of_fmap in Hin as (? & ? & _).
    + by intros (? & ? & _)%list_elem_of_fmap.
    + apply destructs_of_output_params.
Qed.

Lemma destruct_coverage_witness :
  ∃ P M,
    build_procedure 100 Samples.half_request empty_procedure ∅ = Ok (P, M) ∧
    NoDup (destructs_of (instructions P)) ∧
    (∀ a vs v, M !! a = Some vs → v ∈ vs →
       (v ∈ output_params_of (instructions P)
        ∧ v ∉ destructs_of (instructions P))
       ∨ ((v ∉ output_params_of (instructions P))
          ∧ v ∈ destructs_of (instructions P))) ∧
    ∃ before after,
      instructions P = before ++ (IReturn :: after) ∧
      (IReturn ∉ before) ∧ (IReturn ∉ after) ∧
      destructs_of after = [].
Proof.
  apply (destruct_coverage Samples.half_request 100);
    [solve_identity|solve_indices|solve_operations|solve_fuel].
Defined.

End Claims.


Section Worklist.

Implicit Types (M : VariableMap) (P : MFProcedure) (f i g : GField).

(** What one iteration does to the stack and to the map. *)
Lemma visit_top_cases f stack P M stack' P' M' :
  visit_top f (f :: stack) P M = Ok (stack', P', M') →
  (stack' = stack ∧ addr_of f ∈ dom M ∧ M' = M ∧ P' = P) ∨
  (stack' = stack ∧ M !! addr_of f = None ∧ ∃ vs, M' = <[addr_of f := vs]> M) ∨
  (∃ i, stack' = i :: f :: stack ∧ i ∈ inputs_of (source f) ∧
        M !! addr_of f = None ∧ M !! addr_of i = None ∧ M' = M ∧ P' = P).
Proof.
  unfold visit_top. destruct (contains M (addr_of f)) eqn:Hc.
  { intros [= <- <- <-]. left. by apply contains_true in Hc. }
  apply contains_false in Hc.
  unfold is_input, add_variables_for_input, add_variables_for_operation.
  destruct (source f) as [a name d|a fn ins] eqn:Hs; simpl in Hc |- *.
  { unfold map_add. rewrite Hc. intros [= <- <- <-]. right. left. eauto. }
  destruct (find _ ins) as [i|] eqn:Hfind.
  { intros [= <- <- <-]. right. right. exists i.
    apply find_some in Hfind as [Hi%list_elem_of_In Hni].
    apply negb_true_iff, contains_false in Hni. done. }
  destruct (mapM _ ins) as [vs|]; [|done]. simpl. intros [= <- <- <-].
  right. left. eauto.
Qed.

Lemma visit_top_mono f stack P M stack' P' M' :
  visit_top f (f :: stack) P M = Ok (stack', P', M') → M ⊆ M'.
Proof.
  intros [(_ & _ & -> & _)|[(_ & Hnone & vs & ->)|(i & _ & _ & _ & _ & -> & _)]]
    %visit_top_cases; [done|by apply insert_subseteq|done].
Qed.

(** Every iteration that does not fail lowers the measure, whatever the
    graph. *)
Lemma visit_top_potential fields f stack P M stack' P' M' :
  (∀ g, g ∈ f :: stack → g ∈ all_fields fields) →
  visit_top f (f :: stack) P M = Ok (stack', P', M') →
  (∀ g, g ∈ stack' → g ∈ all_fields fields) ∧
  potential fields stack' M' < potential fields (f :: stack) M.
Proof.
  intros Hreach Hstep.
  assert (∀ g, g ∈ stack → g ∈ all_fields fields) as Hreach'
    by (intros g Hg; apply Hreach; by right).
  assert (f ∈ all_fields fields) as Hf by (apply Hreach; by left).
  apply visit_top_cases in Hstep
    as [(-> & Hd & -> & _)|[(-> & Hnone & vs & ->)|(i & -> & Hi & Hnf & Hni & -> & _)]].
  - split; [done|]. unfold potential. cbn [top_weight length].
    apply contains_true in Hd. rewrite Hd.
    pose proof (top_weight_bound fields stack M Hreach'). lia.
  - split; [done|]. unfold potential.
    rewrite <-(unresolved_insert fields M (addr_of f) vs);
      [|by apply address_reachable|done].
    pose proof (top_weight_bound fields stack (<[addr_of f := vs]> M) Hreach').
    cbn [length]. lia.
  - split.
    + intros g [->|Hg]%elem_of_cons; [by eapply all_fields_input|by auto].
    + unfold potential. cbn [top_weight length].
      apply contains_false in Hnf, Hni. rewrite Hnf, Hni.
      pose proof (height_input_lt i (source f) Hi). lia.
Qed.

Lemma visit_loop_fuel fields fuel stack P M :
  (∀ g, g ∈ stack → g ∈ all_fields fields) →
  potential fields stack M < fuel →
  visit_loop fuel stack P M ≠ Fail OutOfFuel.
Proof.
  revert stack P M. induction fuel as [|fuel IH]; intros stack P M Hreach Hpot.
  { lia. }
  destruct stack as [|f stack]; [done|]. simpl.
  destruct (visit_top f (f :: stack) P M) as [[[s1 P1] M1]|e] eqn:Hstep.
  - destruct (visit_top_potential _ _ _ _ _ _ _ _ Hreach Hstep) as [Hreach1 Hlt].
    apply IH; [done|lia].
  - intros [= ->]. revert Hstep. unfold visit_top.
    destruct (contains M (addr_of f)); [done|].
    unfold is_input, add_variables_for_input, add_variables_for_operation.
    destruct (source f) as [a name d|a fn ins]; simpl; [done|].
    destruct (find _ ins); [done|]. by destruct (mapM _ ins).
Qed.

Lemma visit_steps_mono n stack P M stack' P' M' :
  visit_steps n stack P M = Ok (stack', P', M') → M ⊆ M'.
Proof.
  revert stack P M. induction n as [|n IH]; intros stack P M.
  { destruct stack; by intros [= <- <- <-]. }
  destruct stack as [|f stack]; [by intros [= <- <- <-]|]. simpl.
  destruct (visit_top f (f :: stack) P M) as [[[s1 P1] M1]|] eqn:Hstep; [|done].
  simpl. intros Hrest. apply visit_top_mono in Hstep.
  etrans; [done|]. by eapply IH.
Qed.

(** As long as the source of [i] has no map entry, nothing below [i] on the
    stack is touched. *)
Lemma visit_steps_buried n i below above P M stack' P' M' :
  M !! addr_of i = None →
  visit_steps n (above ++ i :: below) P M = Ok (stack', P', M') →
  (∃ above', stack' = above' ++ i :: below) ∨ addr_of i ∈ dom M'.
Proof.
  revert above P M. induction n as [|n IH]; intros above P M Hnone.
  { simpl. intros Heq. left. exists above.
    destruct (above ++ i :: below); by simplify_eq. }
  destruct (above ++ i :: below) as [|t stack] eqn:Hstack.
  { by destruct above. }
  simpl.
  destruct (visit_top t (t :: stack) P M) as [[[s1 P1] M1]|] eqn:Hstep; [|done].
  simpl. intros Hrest.
  pose proof (visit_steps_mono _ _ _ _ _ _ _ Hrest) as Hmono.
  destruct (M1 !! addr_of i) as [vs|] eqn:Hi1.
  { right. apply elem_of_dom. exists vs. by eapply lookup_weaken. }
  apply visit_top_cases in Hstep
    as [(-> & Hd & -> & _)|[(-> & _ & vs & ->)|(j & -> & _ & _ & _ & -> & ->)]].
  - destruct above as [|t' above]; simplify_eq/=.
    + apply elem_of_dom in Hd as [? ?]. congruence.
    + by eapply IH.
  - destruct above as [|t' above]; simplify_eq/=.
    + by rewrite lookup_insert_eq in Hi1.
    + by eapply IH.
  - rewrite <-Hstack in Hrest.
    by apply (IH (j :: above) P M Hnone) in Hrest.
Qed.

(** C6 (termination of the build worklist).  With enough fuel the loop of
    [add_unique_variables] never runs out of fuel, whatever the request,
    and returns for every request over a consistent graph.  An operation at the top of the stack whose first unresolved
    input is [i] stays on the stack, under [i], with the map and the
    procedure unchanged; from then on it stays buried under [i] until the
    source of [i] has a map entry; an iteration never changes a map entry,
    and a field whose source has an entry is popped without any other
    effect. *)
Theorem worklist_terminates fields fuel :
  build_fuel fields ≤ fuel →
  add_unique_variables fuel fields empty_procedure ∅ ≠ Fail OutOfFuel ∧
  (identity_consistent fields → indices_in_range fields →
   ∃ P M, add_unique_variables fuel fields empty_procedure ∅ = Ok (P, M)) ∧
  (∀ f a fn resolved i rest stack P M,
     source f = FieldOperation a fn (resolved ++ i :: rest) →
     M !! a = None →
     (∀ j, j ∈ resolved → addr_of j ∈ dom M) →
     M !! addr_of i = None →
     visit_top f (f :: stack) P M = Ok (i :: f :: stack, P, M)) ∧
  (∀ n f i stack P M stack' P' M',
     M !! addr_of i = None →
     visit_steps n (i :: f :: stack) P M = Ok (stack', P', M') →
     (∃ above, stack' = above ++ i :: f :: stack) ∨ addr_of i ∈ dom M') ∧
  (∀ f stack P M stack' P' M',
     visit_top f (f :: stack) P M = Ok (stack', P', M') →
     M ⊆ M' ∧
     (addr_of f ∈ dom M → stack' = stack ∧ P' = P ∧ M' = M)).
Proof.
  intros Hfuel. split_and!.
  - apply (visit_loop_fuel fields); [|unfold build_fuel in Hfuel; lia].
    intros g Hg. rewrite push_all_rev, app_nil_r in Hg.
    apply elem_of_reverse_2 in Hg. rewrite reverse_involutive in Hg.
    by apply all_fields_root.
  - intros Hid Hidx.
    destruct (add_unique_variables_returns fields fuel Hid Hidx Hfuel)
      as (order & P & M & Hadd & _).
    by exists P, M.
  - intros f a fn resolved i rest stack P M Hs Ha Hres Hi.
    unfold visit_top.
    assert (contains M (addr_of f) = false) as ->
      by (apply contains_false; by rewrite Hs).
    unfold is_input, add_variables_for_operation. rewrite Hs. simpl.
    assert (find (λ i, negb (contains M (addr_of i))) (resolved ++ i :: rest)
            = Some i) as ->; [|done].
    clear Hs. induction resolved as [|j resolved IH]; simpl.
    + assert (contains M (addr_of i) = false) as -> by by apply contains_false.
      done.
    + assert (contains M (addr_of j) = true) as ->.
      { apply contains_true, Hres. by left. }
      simpl. apply IH. intros j' Hj'. apply Hres. by right.
  - intros n f i stack P M stack' P' M' Hnone Hsteps.
    by apply (visit_steps_buried n i (f :: stack) [] P M stack' P' M').
  - intros f stack P M stack' P' M' Hstep. split.
    + by eapply visit_top_mono.
    + intros Hd. unfold visit_top in Hstep.
      apply contains_true in Hd. rewrite Hd in Hstep. by simplify_eq/=.
Qed.

Lemma worklist_terminates_witness :
  add_unique_variables 100 Samples.shared_request empty_procedure ∅
  ≠ Fail OutOfFuel ∧
  (identity_consistent Samples.shared_request →
   indices_in_range Samples.shared_request →
   ∃ P M, add_unique_variables 100 Samples.shared_request empty_procedure ∅
          = Ok (P, M)) ∧
  (∀ f a fn resolved i rest stack P M,
     source f = FieldOperation a fn (resolved ++ i :: rest) →
     M !! a = None →
     (∀ j, j ∈ resolved → addr_of j ∈ dom M) →
     M !! addr_of i = None →
     visit_top f (f :: stack) P M = Ok (i :: f :: stack, P, M)) ∧
  (∀ n f i stack P M stack' P' M',
     M !! addr_of i = None →
     visit_steps n (i :: f :: stack) P M = Ok (stack', P', M') →
     (∃ above, stack' = above ++ i :: f :: stack) ∨ addr_of i ∈ dom M') ∧
  (∀ f stack P M stack' P' M',
     visit_top f (f :: stack) P M = Ok (stack', P', M') →
     M ⊆ M' ∧
     (addr_of f ∈ dom M → stack' = stack ∧ P' = P ∧ M' = M)).
Proof.
  apply (worklist_terminates Samples.shared_request 100); solve_fuel.
Defined.

End Worklist.


Section Gather.

Implicit Types (M : VariableMap) (st : GatherState) (f i g : GField).

Lemma inputs_asked_app tr1 tr2 :
  inputs_asked (tr1 ++ tr2) = inputs_asked tr1 ++ inputs_asked tr2.
Proof. apply omap_app. Qed.

Lemma inputs_asked_get (called : list nat) :
  inputs_asked (EvGetVArray <$> called) = called.
Proof. induction called as [|a called IH]; [done|]. cbn. by f_equal. Qed.

Lemma gather_visit_inv fields M tr0 f st st' called :
  f ∈ all_fields fields →
  gather_inv fields M tr0 st called →
  gather_visit f M st = Ok st' →
  ∃ called', gather_inv fields M tr0 st' called'.
Proof.
  intros Hf [Htr Hnd Hcomp Hcalled Hstack]. unfold gather_visit.
  destruct (source f) as [a name d|a fn ins] eqn:Hs.
  - unfold get_field_variable. rewrite Hs.
    destruct (M !! a ≫= head) as [v|] eqn:Hv; simpl; [|done].
    destruct (decide (v ∈ gs_computed st)) as [Hin|Hnin].
    + intros [= <-]. by exists called.
    + intros [= <-]. exists (called ++ [a]). split; simpl.
      * by rewrite Htr, fmap_app, app_assoc.
      * apply NoDup_app. split_and!; [done| |apply NoDup_singleton].
        intros b Hb ->%list_elem_of_singleton.
        destruct (Hcomp _ Hb) as (v' & Hv' & Hin). congruence.
      * intros b [Hb| ->%list_elem_of_singleton]%elem_of_app.
        -- destruct (Hcomp _ Hb) as (v' & Hv' & Hin). exists v'.
           split; [done|]. apply elem_of_union. by right.
        -- exists v. split; [done|]. apply elem_of_union. left.
           by apply elem_of_singleton.
      * intros b [Hb| ->%list_elem_of_singleton]%elem_of_app; [by auto|].
        exists f. unfold is_input. by rewrite Hs.
      * done.
  - intros [= <-]. exists called. split; simpl; try done.
    intros g Hg. rewrite push_all_rev in Hg.
    apply elem_of_app in Hg as [Hg|Hg]; [|by auto].
    apply elem_of_reverse_2 in Hg. rewrite reverse_involutive in Hg.
    eapply all_fields_input; [done|].
    by rewrite Hs.
Qed.

Lemma gather_loop_inv fields M tr0 fuel st st' called :
  gather_inv fields M tr0 st called →
  gather_loop fuel M st = Ok st' →
  ∃ called', gather_inv fields M tr0 st' called'.
Proof.
  revert st called. induction fuel as [|fuel IH]; intros st called Hinv.
  - simpl. destruct (gs_stack st); [|done]. intros [= <-]. by exists called.
  - simpl. destruct (gs_stack st) as [|f stack] eqn:Hst.
    { intros [= <-]. by exists called. }
    destruct (gather_visit f M _) as [st1|] eqn:Hvisit; simpl; [|done].
    intros Hloop.
    apply (gather_visit_inv fields M tr0 _ _ _ called) in Hvisit
      as [called1 Hinv1].
    + by eapply IH.
    + eapply gi_stack; [done|]. rewrite Hst. by left.
    + destruct Hinv as [Htr Hnd Hcomp Hcalled Hstack]. split; simpl; try done.
      intros g Hg. apply Hstack. rewrite Hst. by right.
Qed.

(** What [gather_inputs] adds to the trace: requests to distinct inputs,
    all of them reachable from the fields. *)
Lemma gather_inputs_trace fuel fields M mask params r_inputs tr params' r_inputs' tr' :
  gather_inputs fuel fields M mask params r_inputs tr
  = Ok (params', r_inputs', tr') →
  ∃ called, tr' = tr ++ (EvGetVArray <$> called) ∧ NoDup called ∧
    ∀ a, a ∈ called →
      ∃ f, f ∈ all_fields fields ∧ is_input f = true ∧ addr_of f = a.
Proof.
  unfold gather_inputs.
  destruct (gather_loop fuel M _) as [st|] eqn:Hloop; simpl; [|done].
  intros [= <- <- <-].
  apply (gather_loop_inv fields M tr _ _ _ []) in Hloop as [called Hinv].
  - exists called. destruct Hinv. done.
  - split; simpl.
    + by rewrite app_nil_r.
    + constructor.
    + by intros a ?%elem_of_nil.
    + by intros a ?%elem_of_nil.
    + intros f Hf. rewrite push_all_rev, app_nil_r in Hf.
      apply elem_of_reverse_2 in Hf. rewrite reverse_involutive in Hf.
      by apply all_fields_root.
Qed.

End Gather.


Section Orchestrator.

Implicit Types (f : GField) (w : World).

Lemma remove_and_reorder_snoc {A} (l : list A) x i :
  i ≤ length l → remove_and_reorder i (l ++ [x]) = <[i := x]> l.
Proof.
  intros Hi. unfold remove_and_reorder. rewrite last_snoc, length_app. simpl.
  replace (length l + 1 - 1) with (length l) by lia.
  destruct (decide (i = length l)) as [->|Hne].
  - rewrite (list_insert_ge l) by lia.
    rewrite insert_app_r_alt by lia. by rewrite take_app_length.
  - rewrite insert_app_l by lia.
    rewrite take_app_length'; [done|]. by rewrite length_insert.
Qed.

Lemma insert_zip {A B} (l : list A) (k : list B) i x y :
  zip (<[i := x]> l) (<[i := y]> k) = <[i := (x, y)]> (zip l k).
Proof.
  revert k i. induction l as [|a l IH]; intros [|b k] [|i]; simpl; try done.
  by rewrite IH.
Qed.

Lemma snoc_cases {A} (l : list A) : l = [] ∨ ∃ l' x, l = l' ++ [x].
Proof.
  induction l as [|a l [->|(l' & x & ->)]].
  - by left.
  - right. by exists [], a.
  - right. by exists (a :: l'), x.
Qed.

Lemma remove_and_reorder_zip {A B} (l : list A) (k : list B) i :
  length l = length k → i < length l →
  zip (remove_and_reorder i l) (remove_and_reorder i k)
  = remove_and_reorder i (zip l k).
Proof.
  intros Hlen Hi.
  destruct (snoc_cases l) as [->|(l' & x & ->)]; [simpl in Hi; lia|].
  destruct (snoc_cases k) as [->|(k' & y & ->)].
  { rewrite length_app in Hlen. simpl in Hlen. lia. }
  rewrite !length_app in Hlen. rewrite length_app in Hi. simpl in Hlen, Hi.
  rewrite zip_with_app by lia. simpl.
  rewrite !remove_and_reorder_snoc; [|rewrite length_zip|..]; try lia.
  apply insert_zip.
Qed.

Lemma remove_and_reorder_length {A} (l : list A) i :
  i < length l → S (length (remove_and_reorder i l)) = length l.
Proof.
  intros Hi. destruct (snoc_cases l) as [->|(l' & x & ->)]; [simpl in Hi; lia|].
  rewrite length_app in Hi |- *. simpl in Hi |- *.
  rewrite remove_and_reorder_snoc, length_insert by lia. lia.
Qed.

Lemma remove_and_reorder_take {A} (l : list A) i :
  i < length l → take i (remove_and_reorder i l) = take i l.
Proof.
  intros Hi. destruct (snoc_cases l) as [->|(l' & x & ->)]; [simpl in Hi; lia|].
  rewrite length_app in Hi. simpl in Hi.
  rewrite remove_and_reorder_snoc, take_insert_ge, take_app_le by lia. done.
Qed.

Lemma remove_and_reorder_drop {A} (l : list A) i :
  i < length l → drop i (remove_and_reorder i l) ≡ₚ drop (S i) l.
Proof.
  intros Hi. destruct (snoc_cases l) as [->|(l' & x & ->)]; [simpl in Hi; lia|].
  rewrite length_app in Hi. simpl in Hi.
  rewrite remove_and_reorder_snoc by lia.
  destruct (decide (i = length l')) as [->|Hne].
  - rewrite list_insert_ge by lia. rewrite !drop_ge; [done|..].
    + rewrite length_app. simpl. lia.
    + lia.
  - destruct (lookup_lt_is_Some_2 l' i) as [z Hz]; [lia|].
    rewrite drop_app_le by lia.
    rewrite drop_insert_ge, Nat.sub_diag by lia.
    rewrite (drop_S _ _ _ Hz). simpl.
    by rewrite (Permutation_cons_append _ x).
Qed.

(** The loop of [evaluate_fields] keeps, in some order, the entries that it
    does not remove. *)
Lemma remaining_perm {A} (keep : A → bool) n (v : list A) :
  n ≤ length v →
  remaining keep n v ≡ₚ filter (λ x, keep x = true) (take n v) ++ drop n v.
Proof.
  revert v. induction n as [|n IH]; intros v Hn; simpl.
  { by rewrite drop_0. }
  destruct (lookup_lt_is_Some_2 v n) as [x Hx]; [lia|]. rewrite Hx.
  rewrite (take_S_r _ _ _ Hx), filter_app.
  destruct (keep x) eqn:Hk.
  - rewrite IH by lia. rewrite (drop_S _ _ _ Hx).
    rewrite filter_cons, decide_True by done. simpl.
    rewrite <-app_assoc. done.
  - rewrite IH by (pose proof (remove_and_reorder_length v n); lia).
    rewrite remove_and_reorder_take, remove_and_reorder_drop by lia.
    rewrite filter_cons, decide_False by congruence.
    by rewrite filter_nil, app_nil_r.
Qed.

Lemma materialize_input_fields_pass mask outputs n nif nio w :
  length nif = length nio → n ≤ length nif →
  take n nio = take n outputs →
  materialize_input_fields n mask outputs nif nio w
  = (direct_pass mask (reverse (take n (zip nif nio))) ≫= λ _,
     mret ((remaining keeps n (zip nif nio)).*1,
           (remaining keeps n (zip nif nio)).*2)) w.
Proof.
  revert nif nio w. induction n as [|n IH]; intros nif nio w Hlen Hn Hout.
  { simpl. unfold mbind, eval_bind, mret, eval_ret. simpl.
    by rewrite fst_zip, snd_zip by lia. }
  destruct (lookup_lt_is_Some_2 nif n) as [f Hf]; [lia|].
  destruct (lookup_lt_is_Some_2 nio n) as [o Ho]; [lia|].
  assert (zip nif nio !! n = Some (f, o)) as Hz.
  { apply lookup_zip_with_Some. by exists f, o. }
  assert (outputs !! n = Some o) as Ho'.
  { rewrite <-(lookup_take_lt outputs (S n) n), <-Hout by lia.
    by rewrite lookup_take_lt by lia. }
  assert (take n nio = take n outputs) as Hout'.
  { rewrite <-(Nat.min_l n (S n)), <-!take_take by lia. by rewrite Hout. }
  rewrite (take_S_r _ _ _ Hz), reverse_snoc.
  cbn [materialize_input_fields direct_pass remaining]. rewrite Hf, Hz.
  unfold mbind at 1. unfold eval_bind at 1. unfold lift at 1. simpl.
  assert (keeps (f, o) = negb (source_is_input (source f))) as -> by done.
  destruct (source f) as [a name d|a fn ins] eqn:Hs; simpl.
  - unfold mbind, eval_bind, lift, record, on_memory. simpl. rewrite Ho'. simpl.
    destruct (materialize d mask (span_data o) (memory w)) as [mem|e]; [|done].
    rewrite IH.
    + rewrite remove_and_reorder_zip by (done || lia).
      rewrite remove_and_reorder_take by (rewrite length_zip; lia). done.
    + pose proof (remove_and_reorder_length nif n).
      pose proof (remove_and_reorder_length nio n). lia.
    + pose proof (remove_and_reorder_length nif n). lia.
    + rewrite remove_and_reorder_take by lia. done.
  - by rewrite IH by (done || lia).
Qed.

(** [evaluate_fields] in two phases: the bare inputs are materialized
    directly, from the last requested field to the first, and what is left
    goes to one procedure. *)
Lemma evaluate_fields_phases fuel fields mask outputs w :
  length fields = length outputs →
  evaluate_fields fuel fields mask outputs w
  = (direct_pass mask (reverse (zip fields outputs)) ≫= λ _,
     match (non_input_pairs fields outputs).*1 with
     | [] => mret tt
     | _ :: _ =>
         evaluate_non_input_fields fuel (non_input_pairs fields outputs).*1
           mask (non_input_pairs fields outputs).*2
     end) w.
Proof.
  intros Hlen. unfold evaluate_fields.
  rewrite bool_decide_eq_true_2 by done.
  unfold mbind at 1 2. unfold eval_bind at 1 2. unfold lift at 1. simpl.
  rewrite materialize_input_fields_pass by done.
  rewrite take_ge by (rewrite length_zip; lia).
  unfold non_input_pairs, mbind, eval_bind.
  destruct (direct_pass mask (reverse (zip fields outputs)) w) as [w1 [[]|e]];
    done.
Qed.

Lemma non_input_pairs_perm fields outputs :
  length fields = length outputs →
  non_input_pairs fields outputs
  ≡ₚ filter (λ p, keeps p = true) (zip fields outputs).
Proof.
  intros Hlen. unfold non_input_pairs.
  rewrite remaining_perm by (rewrite length_zip; lia).
  rewrite take_ge, drop_ge by (rewrite length_zip; lia).
  by rewrite app_nil_r.
Qed.

Lemma non_input_pairs_fields fields outputs f :
  length fields = length outputs →
  f ∈ (non_input_pairs fields outputs).*1 → f ∈ fields ∧ is_input f = false.
Proof.
  intros Hlen ([g o] & -> & Hp)%list_elem_of_fmap.
  rewrite (non_input_pairs_perm _ _ Hlen) in Hp.
  apply list_elem_of_filter in Hp as [Hk Hin]. simpl. split.
  - by apply elem_of_zip_l in Hin.
  - unfold keeps in Hk. by apply negb_true_iff in Hk.
Qed.

Lemma procedures_built_app tr1 tr2 :
  procedures_built (tr1 ++ tr2) = procedures_built tr1 ++ procedures_built tr2.
Proof. apply omap_app. Qed.

Lemma procedures_built_get (called : list nat) :
  procedures_built (EvGetVArray <$> called) = [].
Proof. induction called; done. Qed.

(** The direct pass asks the bare inputs for their data, one request per
    requested field, and constructs no procedure. *)
Lemma direct_pass_trace mask pairs w w' r :
  direct_pass mask pairs w = (w', r) →
  ∃ asked, trace w' = trace w ++ (EvGetVArray <$> asked) ∧
    (r = Ok tt →
     asked = (λ f, addr_of f) <$> filter (λ f, is_input f = true) pairs.*1).
Proof.
  revert w. induction pairs as [|[f o] pairs IH]; intros w; simpl.
  { intros [= <- <-]. exists []. split; [by rewrite app_nil_r|done]. }
  assert (is_input f = source_is_input (source f)) as Hin by done.
  destruct (source f) as [a name d|a fn ins] eqn:Hs; simpl in Hin.
  - unfold mbind, eval_bind, record, on_memory. simpl.
    destruct (materialize d mask (span_data o) (memory w)) as [mem|e].
    + intros Hrest. apply IH in Hrest as (asked & Htr & Hasked).
      exists (a :: asked). simpl in Htr. split.
      * rewrite Htr, <-app_assoc. done.
      * intros Hr. rewrite (Hasked Hr), filter_cons, decide_True by done.
        simpl. by rewrite Hs.
    + intros [= <- <-]. exists [a]. done.
  - rewrite filter_cons, decide_False by (rewrite Hin; done). apply IH.
Qed.

End Orchestrator.


Section Evaluation.

Implicit Types (f : GField) (w : World).

(** What the evaluation of operation-rooted fields adds to the trace: one
    procedure, then requests to distinct inputs reachable from the fields. *)
Lemma evaluate_non_input_fields_trace fuel fields mask outputs w w' r :
  evaluate_non_input_fields fuel fields mask outputs w = (w', r) →
  ∃ called,
    trace w' = trace w ++ EvProcedure fields :: (EvGetVArray <$> called) ∧
    NoDup called ∧
    ∀ a, a ∈ called →
      ∃ f, f ∈ all_fields fields ∧ is_input f = true ∧ addr_of f = a.
Proof.
  unfold evaluate_non_input_fields, mbind, eval_bind, record, lift, on_trace,
    on_memory. simpl.
  assert (∃ called : list nat,
    trace w ++ [EvProcedure fields]
    = trace w ++ EvProcedure fields :: (EvGetVArray <$> called) ∧
    NoDup called ∧
    ∀ a, a ∈ called →
      ∃ f, f ∈ all_fields fields ∧ is_input f = true ∧ addr_of f = a) as Hnil.
  { exists []. split_and!; [done|constructor|by intros a ?%elem_of_nil]. }
  destruct (build_procedure fuel fields empty_procedure ∅) as [[P M]|e]; simpl;
    [|by intros [= <- <-]].
  destruct (gather_inputs fuel fields M mask [] [] _)
    as [[[params r_inputs] tr]|e] eqn:Hg; simpl; [|by intros [= <- <-]].
  apply gather_inputs_trace in Hg as (called & -> & Hnd & Hcalled).
  assert (∃ called0 : list nat,
    (trace w ++ [EvProcedure fields]) ++ (EvGetVArray <$> called)
    = trace w ++ EvProcedure fields :: (EvGetVArray <$> called0) ∧
    NoDup called0 ∧
    ∀ a, a ∈ called0 →
      ∃ f, f ∈ all_fields fields ∧ is_input f = true ∧ addr_of f = a) as Hres.
  { exists called. by rewrite <-app_assoc. }
  destruct (executor_call P mask _ (memory w)) as [mem|e]; simpl;
    by intros [= <- <-].
Qed.

Lemma evaluate_fields_asserts fuel fields mask outputs w :
  length fields ≠ length outputs →
  evaluate_fields fuel fields mask outputs w = (w, Fail AssertionFailed).
Proof.
  intros Hlen. unfold evaluate_fields.
  by rewrite bool_decide_eq_false_2 by done.
Qed.

(** What [materialize] does to the block it is given: the masked elements
    receive the data, the others stay as they were. *)
Lemma materialize_writes data mask ptr (mem : Memory) block :
  mem !! ptr = Some block →
  (∀ i, i ∈ mask → i < length block) →
  ∃ block',
    materialize data mask ptr mem = Ok (<[ptr := block']> mem) ∧
    length block' = length block ∧
    ∀ i, i < length block →
      block' !! i = if decide (i ∈ mask) then Some (data i) else block !! i.
Proof.
  revert mem block. induction mask as [|j mask IH]; intros mem block Hptr Hmask.
  { exists block. simpl. rewrite insert_id by done. split_and!; try done. }
  assert (j < length block) as Hj by (apply Hmask; by left).
  simpl. unfold write_element. rewrite Hptr. simpl.
  rewrite decide_True by done. simpl.
  assert ((<[ptr := <[j := data j]> block]> mem) !! ptr
          = Some (<[j := data j]> block)) as Hptr'
    by by rewrite lookup_insert_eq.
  assert (∀ i, i ∈ mask → i < length (<[j := data j]> block)) as Hmask'.
  { intros i Hi. rewrite length_insert. apply Hmask. by right. }
  destruct (IH _ _ Hptr' Hmask') as (block' & Hmat & Hlen & Hblock).
  exists block'. rewrite Hmat, insert_insert_eq.
  rewrite length_insert in Hlen, Hblock. split_and!; try done.
  intros i Hi. rewrite (Hblock i Hi).
  destruct (decide (i ∈ mask)) as [Hin|Hnin].
  - rewrite decide_True; [done|]. by right.
  - destruct (decide (i = j)) as [->|Hne].
    + rewrite decide_True by (by left). by rewrite list_lookup_insert_eq.
    + rewrite decide_False.
      * by rewrite list_lookup_insert_ne.
      * intros [?|?]%elem_of_cons; done.
Qed.

(** C7 (contract check).  When the number of fields differs from the number
    of output buffers, [evaluate_fields] fails on its assertion and leaves
    the storage of the caller, and the trace, as they were. *)
Theorem length_mismatch_fails fuel fields mask outputs w :
  length fields ≠ length outputs →
  evaluate_fields fuel fields mask outputs w = (w, Fail AssertionFailed).
Proof. apply evaluate_fields_asserts. Qed.

Lemma length_mismatch_fails_witness :
  evaluate_fields 100 Samples.shared_request (IndexRange 3) [Samples.out_100]
    Samples.world
  = (Samples.world, Fail AssertionFailed).
Proof.
  apply (length_mismatch_fails 100 Samples.shared_request (IndexRange 3)
           [Samples.out_100] Samples.world).
  simpl. lia.
Defined.

(** C8 (bare inputs bypass the procedure).  [evaluate_fields] is the
    direct pass over the requested fields, last to first, which asks each
    bare input for its data and copies it to the paired buffer and constructs
    no procedure, followed, when some field is left, by the evaluation of
    the fields left through one procedure.  The fields left, with their
    buffers, are the pairs whose field is not a bare input.  When every
    requested field is a bare input nothing is left: the call is the
    direct pass alone and constructs no procedure.  A copy to a buffer that
    holds the masked elements writes the data of the input at the masked
    elements and leaves the other elements as they were. *)
Theorem bare_inputs_bypass fuel fields mask outputs :
  length fields = length outputs →
  ∃ left_over : list (GField * GMutableSpan),
    left_over ≡ₚ filter (λ p, is_input p.1 = false) (zip fields outputs) ∧
    (∀ w, evaluate_fields fuel fields mask outputs w
          = (direct_pass mask (reverse (zip fields outputs)) ≫= λ _,
             match left_over.*1 with
             | [] => mret tt
             | _ :: _ =>
                 evaluate_non_input_fields fuel left_over.*1 mask left_over.*2
             end) w) ∧
    (∀ w w' r, direct_pass mask (reverse (zip fields outputs)) w = (w', r) →
       procedures_built (trace w') = procedures_built (trace w)) ∧
    (∀ w w' r, evaluate_fields fuel fields mask outputs w = (w', r) →
       procedures_built (trace w') = procedures_built (trace w) ∨
       procedures_built (trace w')
       = procedures_built (trace w) ++ [left_over.*1]) ∧
    (Forall (λ f, is_input f = true) fields →
     left_over = [] ∧
     ∀ w, evaluate_fields fuel fields mask outputs w
          = direct_pass mask (reverse (zip fields outputs)) w) ∧
    (∀ data ptr (mem : Memory) block,
       mem !! ptr = Some block →
       (∀ i, i ∈ mask → i < length block) →
       ∃ block',
         materialize data mask ptr mem = Ok (<[ptr := block']> mem) ∧
         length block' = length block ∧
         ∀ i, i < length block →
           block' !! i
           = if decide (i ∈ mask) then Some (data i) else block !! i).
Proof.
  intros Hlen. exists (non_input_pairs fields outputs).
  assert (∀ w w' r,
    direct_pass mask (reverse (zip fields outputs)) w = (w', r) →
    procedures_built (trace w') = procedures_built (trace w)) as Hdirect.
  { intros w w' r (asked & -> & _)%direct_pass_trace.
    by rewrite procedures_built_app, procedures_built_get, app_nil_r. }
  assert (non_input_pairs fields outputs
          ≡ₚ filter (λ p, is_input p.1 = false) (zip fields outputs)) as Hperm.
  { rewrite non_input_pairs_perm by done.
    assert (filter (λ p, keeps p = true) (zip fields outputs)
            = filter (λ p, is_input p.1 = false) (zip fields outputs)) as ->;
      [|done].
    apply list_filter_iff. intros p. unfold keeps. by rewrite negb_true_iff. }
  split_and!; try done.
  - intros w. by apply evaluate_fields_phases.
  - intros w w' r. rewrite evaluate_fields_phases by done.
    unfold mbind, eval_bind.
    destruct (direct_pass mask (reverse (zip fields outputs)) w)
      as [w1 [[]|e]] eqn:Hpass.
    + apply Hdirect in Hpass.
      destruct ((non_input_pairs fields outputs).*1) as [|f fs] eqn:Hleft.
      * intros [= <- <-]. by left.
      * intros (called & -> & _)%evaluate_non_input_fields_trace. right.
        rewrite procedures_built_app, Hpass. simpl.
        by rewrite procedures_built_get.
    + intros [= <- <-]. left. by eapply Hdirect.
  - intros Hbare.
    assert (non_input_pairs fields outputs = []) as Hnil.
    { destruct (non_input_pairs fields outputs) as [|[f o] ps] eqn:Hps; [done|].
      destruct (non_input_pairs_fields fields outputs f Hlen) as [Hf Hin].
      { rewrite Hps. by left. }
      rewrite Forall_forall in Hbare. specialize (Hbare f Hf). congruence. }
    split; [done|]. intros w. rewrite evaluate_fields_phases by done.
    rewrite Hnil. simpl. unfold mbind, eval_bind, mret, eval_ret.
    by destruct (direct_pass mask (reverse (zip fields outputs)) w)
      as [w1 [[]|e]].
  - intros data ptr mem block. apply materialize_writes.
Qed.

Lemma bare_inputs_bypass_witness :
  ∃ left_over : list (GField * GMutableSpan),
    left_over
    ≡ₚ filter (λ p, is_input p.1 = false)
         (zip [Samples.field_A; Samples.double_A]
              [Samples.out_100; Samples.out_200]) ∧
    (∀ w, evaluate_fields 100 [Samples.field_A; Samples.double_A]
            (IndexRange 3) [Samples.out_100; Samples.out_200] w
          = (direct_pass (IndexRange 3)
               (reverse (zip [Samples.field_A; Samples.double_A]
                             [Samples.out_100; Samples.out_200])) ≫= λ _,
             match left_over.*1 with
             | [] => mret tt
             | _ :: _ =>
                 evaluate_non_input_fields 100 left_over.*1 (IndexRange 3)
                   left_over.*2
             end) w) ∧
    (∀ w w' r,
       direct_pass (IndexRange 3)
         (reverse (zip [Samples.field_A; Samples.double_A]
                       [Samples.out_100; Samples.out_200])) w = (w', r) →
       procedures_built (trace w') = procedures_built (trace w)) ∧
    (∀ w w' r,
       evaluate_fields 100 [Samples.field_A; Samples.double_A]
         (IndexRange 3) [Samples.out_100; Samples.out_200] w = (w', r) →
       procedures_built (trace w') = procedures_built (trace w) ∨
       procedures_built (trace w')
       = procedures_built (trace w) ++ [left_over.*1]) ∧
    (Forall (λ f, is_input f = true) [Samples.field_A; Samples.double_A] →
     left_over = [] ∧
     ∀ w, evaluate_fields 100 [Samples.field_A; Samples.double_A]
            (IndexRange 3) [Samples.out_100; Samples.out_200] w
          = direct_pass (IndexRange 3)
              (reverse (zip [Samples.field_A; Samples.double_A]
                            [Samples.out_100; Samples.out_200])) w) ∧
    (∀ data ptr (mem : Memory) block,
       mem !! ptr = Some block →
       (∀ i, i ∈ IndexRange 3 → i < length block) →
       ∃ block',
         materialize data (IndexRange 3) ptr mem = Ok (<[ptr := block']> mem) ∧
         length block' = length block ∧
         ∀ i, i < length block →
           block' !! i
           = if decide (i ∈ IndexRange 3) then Some (data i) else block !! i).
Proof.
  apply (bare_inputs_bypass 100 [Samples.field_A; Samples.double_A]
           (IndexRange 3) [Samples.out_100; Samples.out_200]).
  reflexivity.
Defined.

(** What the direct pass asks when it is cut short: the requests made are
    the first of the requests of the whole pass. *)
Lemma direct_pass_asked mask pairs w :
  ∃ asked,
    trace (direct_pass mask pairs w).1 = trace w ++ (EvGetVArray <$> asked) ∧
    asked `prefix_of`
      ((λ f, addr_of f) <$> filter (λ f, is_input f = true) pairs.*1) ∧
    ((direct_pass mask pairs w).2 = Ok tt →
     asked = (λ f, addr_of f) <$> filter (λ f, is_input f = true) pairs.*1).
Proof.
  revert w. induction pairs as [|[f o] pairs IH]; intros w; simpl.
  { exists []. by rewrite app_nil_r. }
  assert (is_input f = source_is_input (source f)) as Hin by done.
  destruct (source f) as [a name d|a fn ins] eqn:Hs; simpl in Hin.
  - rewrite filter_cons, decide_True by done. simpl. rewrite Hs. simpl.
    unfold mbind, eval_bind, record, on_memory. simpl.
    destruct (materialize d mask (span_data o) (memory w)) as [mem|e].
    + destruct (IH (mkWorld mem (trace w ++ [EvGetVArray a])))
        as (asked & Htr & Hpre & Hall).
      exists (a :: asked). simpl in Htr. split_and!.
      * rewrite Htr, <-app_assoc. done.
      * by apply prefix_cons.
      * intros Hr. by rewrite (Hall Hr).
    + exists [a]. simpl. split_and!; [done| |done].
      apply prefix_cons, prefix_nil.
  - rewrite filter_cons, decide_False by (rewrite Hin; done). apply IH.
Qed.

Lemma filter_none {A} (P : A → Prop) `{∀ x, Decision (P x)} (l : list A) :
  (∀ x, x ∈ l → ¬ P x) → filter P l = [].
Proof.
  induction l as [|x l IH]; intros Hl; [done|].
  rewrite filter_cons, decide_False by (apply Hl; by left).
  apply IH. intros y Hy. apply Hl. by right.
Qed.

Lemma NoDup_filter_eq_length (a : nat) (l : list nat) :
  NoDup l → length (filter (λ x, x = a) l) ≤ 1.
Proof.
  induction 1 as [|x l Hx Hnd IH]; [simpl; lia|].
  rewrite filter_cons. destruct (decide (x = a)) as [->|]; [|done].
  rewrite (filter_none (λ x, x = a) l) by (by intros y Hy ->). simpl. lia.
Qed.

Lemma prefix_filter_eq_length (a : nat) (l k : list nat) :
  l `prefix_of` k →
  length (filter (λ x, x = a) l) ≤ length (filter (λ x, x = a) k).
Proof. intros [k' ->]. rewrite filter_app, length_app. lia. Qed.

Lemma bare_requests_length (a : nat) fields :
  length (filter (λ x, x = a)
            ((λ f, addr_of f)
               <$> filter (λ f, is_input f = true) (reverse fields)))
  = length (filter (λ f, is_input f = true ∧ addr_of f = a) fields).
Proof.
  rewrite filter_reverse, fmap_reverse, filter_reverse, length_reverse.
  induction fields as [|f fields IH]; [done|].
  rewrite (filter_cons (λ f, is_input f = true)),
    (filter_cons (λ f, is_input f = true ∧ addr_of f = a)).
  destruct (decide (is_input f = true)) as [Hin|Hin].
  - rewrite fmap_cons, (filter_cons (λ x, x = a)).
    destruct (decide (addr_of f = a)) as [Ha|Ha].
    + rewrite decide_True by done. cbn [length]. by rewrite IH.
    + by rewrite decide_False by tauto.
  - by rewrite decide_False by tauto.
Qed.

(** C4, as the code has it.  In every call of [evaluate_fields], whatever
    its result, the requests for data are those of the direct pass followed
    by those of the input gatherer.  The direct pass asks an input once for
    every requested field that is that bare input, last field first, and
    stops short only where the call fails.  The input gatherer asks each
    input at most once, and only inputs reachable from the requested fields
    that are not bare inputs.  So an input is asked at most once more than
    the number of requested fields that are that bare input; an input that
    is not requested as a bare field is asked at most once. *)
Theorem input_data_requests fuel fields mask outputs w :
  ∃ direct gathered,
    inputs_asked (trace (evaluate_fields fuel fields mask outputs w).1)
    = inputs_asked (trace w) ++ direct ++ gathered ∧
    direct `prefix_of`
      ((λ f, addr_of f)
         <$> filter (λ f, is_input f = true) (reverse fields)) ∧
    ((evaluate_fields fuel fields mask outputs w).2 = Ok tt →
     direct = (λ f, addr_of f)
                <$> filter (λ f, is_input f = true) (reverse fields)) ∧
    NoDup gathered ∧
    (∀ a, a ∈ gathered →
       ∃ r f, r ∈ fields ∧ is_input r = false ∧ f ∈ subfields r ∧
         is_input f = true ∧ addr_of f = a) ∧
    (∀ a, length (filter (λ x, x = a) (direct ++ gathered))
          ≤ length (filter (λ f, is_input f = true ∧ addr_of f = a) fields)
            + 1) ∧
    (∀ a, (∀ f, f ∈ fields → is_input f = true → addr_of f ≠ a) →
          length (filter (λ x, x = a) (direct ++ gathered)) ≤ 1).
Proof.
  assert (∃ direct gathered,
    inputs_asked (trace (evaluate_fields fuel fields mask outputs w).1)
    = inputs_asked (trace w) ++ direct ++ gathered ∧
    direct `prefix_of`
      ((λ f, addr_of f)
         <$> filter (λ f, is_input f = true) (reverse fields)) ∧
    ((evaluate_fields fuel fields mask outputs w).2 = Ok tt →
     direct = (λ f, addr_of f)
                <$> filter (λ f, is_input f = true) (reverse fields)) ∧
    NoDup gathered ∧
    (∀ a, a ∈ gathered →
       ∃ r f, r ∈ fields ∧ is_input r = false ∧ f ∈ subfields r ∧
         is_input f = true ∧ addr_of f = a)) as Hparts.
  { destruct (decide (length fields = length outputs)) as [Hlen|Hne]; cycle 1.
    { rewrite (evaluate_fields_asserts _ _ _ _ _ Hne). exists [], []. simpl.
      rewrite app_nil_r.
      split_and!; [done|apply prefix_nil|done|constructor|].
      by intros a ?%elem_of_nil. }
    rewrite evaluate_fields_phases by done.
    destruct (direct_pass_asked mask (reverse (zip fields outputs)) w)
      as (direct & Htr1 & Hpre & Hall).
    rewrite fmap_reverse, fst_zip in Hpre, Hall by lia.
    unfold mbind, eval_bind.
    destruct (direct_pass mask (reverse (zip fields outputs)) w)
      as [w1 [[]|e]] eqn:Hpass; simpl in Htr1, Hall |- *.
    - destruct ((non_input_pairs fields outputs).*1) as [|f0 fs] eqn:Hleft.
      + exists direct, []. simpl.
        rewrite Htr1, inputs_asked_app, inputs_asked_get, app_nil_r.
        split_and!; [done|done|by intros _; apply Hall|constructor|].
        by intros a ?%elem_of_nil.
      + destruct (evaluate_non_input_fields fuel (f0 :: fs) mask
                    (non_input_pairs fields outputs).*2 w1)
          as [w2 r2] eqn:Heval.
        apply evaluate_non_input_fields_trace in Heval
          as (called & Htr2 & Hnd & Hcalled).
        exists direct, called. simpl. split_and!.
        * rewrite Htr2, Htr1, !inputs_asked_app, inputs_asked_get. simpl.
          by rewrite inputs_asked_get, <-app_assoc.
        * done.
        * intros _. by apply Hall.
        * done.
        * intros a Ha. destruct (Hcalled a Ha) as (f & Hf & Hin & Haddr).
          apply list_elem_of_bind in Hf as (r & Hf & Hr).
          rewrite <-Hleft in Hr.
          apply (non_input_pairs_fields _ _ _ Hlen) in Hr as [Hr Hop].
          by exists r, f.
    - exists direct, []. simpl.
      rewrite Htr1, inputs_asked_app, inputs_asked_get, app_nil_r.
      split_and!; [done|done|done|constructor|].
      by intros a ?%elem_of_nil. }
  destruct Hparts as (direct & gathered & Htr & Hpre & Hall & Hnd & Hreach).
  assert (∀ a, length (filter (λ x, x = a) (direct ++ gathered))
               ≤ length (filter (λ f, is_input f = true ∧ addr_of f = a)
                           fields) + 1) as Hcount.
  { intros a. rewrite filter_app, length_app.
    pose proof (prefix_filter_eq_length a _ _ Hpre) as Hd.
    rewrite bare_requests_length in Hd.
    pose proof (NoDup_filter_eq_length a gathered Hnd). lia. }
  exists direct, gathered. split_and!; try done.
  intros a Hbare. specialize (Hcount a).
  assert (filter (λ f, is_input f = true ∧ addr_of f = a) fields = [])
    as Hnone.
  { apply filter_none. intros f Hf [Hin Ha]. by apply (Hbare f). }
  rewrite Hnone in Hcount. simpl in Hcount. lia.
Qed.

Lemma input_data_requests_witness :
  ∃ direct gathered,
    inputs_asked
      (trace (evaluate_fields 100 [Samples.field_A; Samples.double_A]
                (IndexRange 3) [Samples.out_100; Samples.out_200]
                Samples.world).1)
    = inputs_asked (trace Samples.world) ++ direct ++ gathered ∧
    direct `prefix_of`
      ((λ f, addr_of f)
         <$> filter (λ f, is_input f = true)
               (reverse [Samples.field_A; Samples.double_A])) ∧
    ((evaluate_fields 100 [Samples.field_A; Samples.double_A]
        (IndexRange 3) [Samples.out_100; Samples.out_200] Samples.world).2
     = Ok tt →
     direct = (λ f, addr_of f)
                <$> filter (λ f, is_input f = true)
                      (reverse [Samples.field_A; Samples.double_A])) ∧
    NoDup gathered ∧
    (∀ a, a ∈ gathered →
       ∃ r f, r ∈ [Samples.field_A; Samples.double_A] ∧ is_input r = false ∧
         f ∈ subfields r ∧ is_input f = true ∧ addr_of f = a) ∧
    (∀ a, length (filter (λ x, x = a) (direct ++ gathered))
          ≤ length (filter (λ f, is_input f = true ∧ addr_of f = a)
                      [Samples.field_A; Samples.double_A])
            + 1) ∧
    (∀ a, (∀ f, f ∈ [Samples.field_A; Samples.double_A] →
             is_input f = true → addr_of f ≠ a) →
          length (filter (λ x, x = a) (direct ++ gathered)) ≤ 1).
Proof.
  exact (input_data_requests 100 [Samples.field_A; Samples.double_A]
           (IndexRange 3) [Samples.out_100; Samples.out_200] Samples.world).
Defined.

(** C4, as stated, fails: when an input is requested as a bare field and is
    also below a requested operation, it is asked for its data twice in one
    call. *)
Lemma input_asked_twice :
  let w' := (evaluate_fields 100 [Samples.field_A; Samples.double_A]
               (IndexRange 3) [Samples.out_100; Samples.out_200]
               Samples.world).1 in
  inputs_asked (trace w') = [1; 1] ∧ ¬ NoDup (inputs_asked (trace w')).
Proof.
  assert (inputs_asked
            (trace (evaluate_fields 100 [Samples.field_A; Samples.double_A]
                      (IndexRange 3) [Samples.out_100; Samples.out_200]
                      Samples.world).1) = [1; 1]) as Heq
    by (vm_compute; reflexivity).
  simpl. rewrite Heq. split; [done|].
  intros Hnd. apply NoDup_cons in Hnd as [Hnin _]. apply Hnin. by left.
Qed.

(** C1, at an input where the code falls short of it.  For the requested
    field [A - B] the procedure declares the parameter of [A] before the
    parameter of [B], and the input gatherer binds the data of [B] before
    the data of [A]: the call returns and writes [B - A]. *)
Theorem evaluate_fields_swaps_inputs :
  let r := evaluate_fields 100 [Samples.A_minus_B] (IndexRange 1)
             [Samples.out_100] Samples.world in
  r.2 = Ok tt ∧
  memory r.1 !! 100 = Some [2; 0; 0]%Z ∧
  field_value Samples.A_minus_B 0 = (-2)%Z.
Proof. vm_compute. done. Qed.

(** C9, at an input where the code falls short of it.  The constant
    evaluation of [A - B] is the evaluation of the one field over the mask
    [{0}] into a span of one element, and it writes [B - A] at element 0. *)
Theorem evaluate_constant_field_swaps_inputs :
  let r := evaluate_constant_field 100 Samples.A_minus_B 100 Samples.world in
  r = evaluate_fields 100 [Samples.A_minus_B] (IndexRange 1)
        [mkGMutableSpan (cpp_type Samples.A_minus_B) 100 1] Samples.world ∧
  r.2 = Ok tt ∧
  memory r.1 !! 100 = Some [2; 0; 0]%Z ∧
  field_value Samples.A_minus_B 0 = (-2)%Z.
Proof. split; [reflexivity|]. vm_compute. done. Qed.

End Evaluation.


Section GatherFuel.

Implicit Types (M : VariableMap) (st : GatherState) (f : GField).

Lemma visits_operation a fn ins :
  visits (FieldOperation a fn ins) = S (stack_visits ins).
Proof.
  simpl. f_equal. unfold stack_visits. induction ins as [|i ins IH]; [done|].
  simpl. by rewrite IH.
Qed.

Lemma stack_visits_push ins stack :
  stack_visits (push_all ins stack) = stack_visits ins + stack_visits stack.
Proof.
  unfold stack_visits.
  by rewrite push_all_rev, sum_list_with_app, sum_list_with_reverse.
Qed.



End GatherFuel.

(** ** The scenarios of the specification *)

Section Scenarios.

(** A bare input over the full mask: its data in the buffer, no procedure.  *)
Example scenario_bare_input :
  let r := evaluate_fields 100 [Samples.field_A] (IndexRange 3)
             [Samples.out_100] Samples.world in
  r.2 = Ok tt ∧
  memory r.1 !! 100 = Some [1; 2; 3]%Z ∧
  procedures_built (trace r.1) = [].
Proof. vm_compute. done. Qed.

(** [double(A)] and [square(A)] share [A]: one input parameter, two calls,
    and both buffers written. *)
Example scenario_shared_input :
  let r := evaluate_fields 100 Samples.shared_request (IndexRange 3)
             [Samples.out_100; Samples.out_200] Samples.world in
  r.2 = Ok tt ∧
  memory r.1 !! 100 = Some [2; 4; 6]%Z ∧
  memory r.1 !! 200 = Some [1; 4; 9]%Z ∧
  inputs_asked (trace r.1) = [1].
Proof. vm_compute. done. Qed.

Example scenario_shared_input_procedure :
  ∃ P M,
    build_procedure 100 Samples.shared_request empty_procedure ∅ = Ok (P, M) ∧
    length (filter (λ instr, is_input_param instr = true) (instructions P)) = 1 ∧
    length (filter (λ instr, is_call instr = true) (instructions P)) = 2.
Proof. eexists _, _. split; [vm_compute; reflexivity|]. by vm_compute. Qed.

(** [square(double(B))] with [B = 3], evaluated as a constant. *)
Example scenario_constant :
  let r := evaluate_constant_field 100 Samples.square_double_B 100
             Samples.world in
  r.2 = Ok tt ∧ memory r.1 !! 100 = Some [36; 0; 0]%Z.
Proof. vm_compute. done. Qed.

(** A mask that leaves an element out leaves it as it was. *)
Example scenario_partial_mask :
  let r := evaluate_fields 100 [Samples.double_A] [0; 2]
             [Samples.out_100] Samples.world in
  r.2 = Ok tt ∧ memory r.1 !! 100 = Some [2; 0; 6]%Z.
Proof. vm_compute. done. Qed.

End Scenarios.


(** * Further properties of the procedure builder *)

Section BuilderExtras.

Implicit Types (M : VariableMap) (P : MFProcedure) (f i g : GField).

Lemma visit_loop_resolved fuel stack P M :
  (∀ f, f ∈ stack → addr_of f ∈ dom M) →
  length stack < fuel →
  visit_loop fuel stack P M = Ok (P, M).
Proof.
  revert stack. induction fuel as [|fuel IH]; intros stack Hres Hfuel; [lia|].
  destruct stack as [|f stack]; [done|]. simpl. unfold visit_top.
  assert (contains M (addr_of f) = true) as ->.
  { apply contains_true, Hres. by left. }
  simpl. apply IH; [|simpl in Hfuel; lia].
  intros g Hg. apply Hres. by right.
Qed.

(** A request whose sources all have a map entry leaves the procedure and
    the map as they are: every field is popped and discarded. *)
Theorem add_unique_variables_resolved fuel fields P M :
  (∀ f, f ∈ fields → addr_of f ∈ dom M) →
  length fields < fuel →
  add_unique_variables fuel fields P M = Ok (P, M).
Proof.
  intros Hres Hfuel. unfold add_unique_variables.
  apply visit_loop_resolved.
  - intros f Hf. rewrite push_all_rev, app_nil_r in Hf.
    apply elem_of_reverse_2 in Hf. rewrite reverse_involutive in Hf. auto.
  - by rewrite push_all_rev, app_nil_r, length_reverse.
Qed.

Lemma add_unique_variables_resolved_witness :
  add_unique_variables 5 [Samples.field_A; Samples.field_A]
    (mkProcedure [IInputParam 0 0 "A"] 1) {[ 1 := [0] ]}
  = Ok (mkProcedure [IInputParam 0 0 "A"] 1, {[ 1 := [0] ]}).
Proof.
  apply (add_unique_variables_resolved 5 [Samples.field_A; Samples.field_A]).
  - intros f Hf. vm_compute in Hf.
    repeat (apply elem_of_cons in Hf as [->|Hf]);
      [..|by apply elem_of_nil in Hf]; by vm_compute.
  - simpl. lia.
Defined.

Lemma visit_top_extends f stack P M stack' P' M' :
  visit_top f stack P M = Ok (stack', P', M') →
  M ⊆ M' ∧ instructions P `prefix_of` instructions P' ∧
  num_variables P ≤ num_variables P'.
Proof.
  unfold visit_top. destruct (contains M (addr_of f)) eqn:Hc.
  { by intros [= <- <- <-]. }
  apply contains_false in Hc.
  unfold is_input, add_variables_for_input, add_variables_for_operation.
  destruct (source f) as [a name d|a fn ins] eqn:Hs; simpl in Hc |- *.
  { unfold map_add. rewrite Hc. intros [= <- <- <-]. simpl.
    split_and!; [by apply insert_subseteq|by apply prefix_app_r|lia]. }
  destruct (find _ ins) as [i|]; [by intros [= <- <- <-]|].
  destruct (mapM _ ins) as [vs|]; [|done]. simpl. intros [= <- <- <-]. simpl.
  split_and!; [by apply insert_subseteq|by apply prefix_app_r|lia].
Qed.

(** Whatever the builder and the map it starts from, the worklist only
    adds: the entries of the map stay as they are, the instructions emitted
    so far stay in front, and no variable is taken back. *)
Theorem add_unique_variables_extends fuel fields P M P' M' :
  add_unique_variables fuel fields P M = Ok (P', M') →
  M ⊆ M' ∧ instructions P `prefix_of` instructions P' ∧
  num_variables P ≤ num_variables P'.
Proof.
  unfold add_unique_variables. generalize (push_all fields []).
  intros stack. revert stack P M.
  induction fuel as [|fuel IH]; intros stack P M; simpl.
  { destruct stack; [|done]. by intros [= <- <-]. }
  destruct stack as [|f stack]; [by intros [= <- <-]|].
  destruct (visit_top f (f :: stack) P M) as [[[s1 P1] M1]|] eqn:Hstep; [|done].
  intros (Hm & Hp & Hn)%IH.
  apply visit_top_extends in Hstep as (Hm1 & Hp1 & Hn1).
  split_and!; [by etrans|by etrans|lia].
Qed.

Lemma add_unique_variables_extends_witness :
  let P := mkProcedure
             [IInputParam 0 0 "A"; ICall Samples.double [0] [1]] 2 in
  let M : VariableMap := {[ 1 := [0]; 10 := [1] ]} in
  let P' := mkProcedure
              [IInputParam 0 0 "A"; ICall Samples.double [0] [1];
               IInputParam 2 0 "B"; ICall Samples.subtract [0; 2] [3];
               ICall Samples.square [1] [4]] 5 in
  let M' : VariableMap :=
    {[ 1 := [0]; 10 := [1]; 2 := [2]; 13 := [3]; 12 := [4] ]} in
  add_unique_variables 100 [Samples.square_double_A; Samples.A_minus_B] P M
  = Ok (P', M') ∧
  M ⊆ M' ∧ instructions P `prefix_of` instructions P' ∧
  num_variables P ≤ num_variables P'.
Proof.
  intros P M P' M'.
  assert (add_unique_variables 100
            [Samples.square_double_A; Samples.A_minus_B] P M
          = Ok (P', M')) as Hrun by (vm_compute; reflexivity).
  split; [exact Hrun|].
  exact (add_unique_variables_extends 100
           [Samples.square_double_A; Samples.A_minus_B] P M P' M' Hrun).
Defined.

End BuilderExtras.


Section ProcedureExtras.

Implicit Types (M : VariableMap) (P : MFProcedure) (f i g : GField).

Lemma join_NoDup_index {A} (ls : list (list A)) j k l1 l2 x :
  NoDup (mjoin ls) →
  ls !! j = Some l1 → ls !! k = Some l2 → x ∈ l1 → x ∈ l2 → j = k.
Proof.
  revert j k. induction ls as [|l ls IH]; intros j k Hnd Hj Hk H1 H2.
  { by rewrite lookup_nil in Hj. }
  simpl in Hnd. apply NoDup_app in Hnd as (_ & Hdisj & Hnd).
  assert (∀ n l', ls !! n = Some l' → x ∈ l' → x ∈ mjoin ls) as Hin.
  { intros n l' Hn Hx. apply list_elem_of_join. exists l'. split; [done|].
    by eapply list_elem_of_lookup_2. }
  destruct j as [|j], k as [|k]; simpl in Hj, Hk; simplify_eq; try done.
  - exfalso. eapply Hdisj; [done|]. by eapply Hin.
  - exfalso. eapply Hdisj; [done|]. by eapply Hin.
  - f_equal. by eapply IH.
Qed.

(** A variable is recorded for one source only. *)
Lemma variables_disjoint fields order stack P M a1 a2 vs1 vs2 v :
  build_inv fields order stack P M →
  M !! a1 = Some vs1 → M !! a2 = Some vs2 → v ∈ vs1 → v ∈ vs2 → a1 = a2.
Proof.
  intros Hinv H1 H2 Hv1 Hv2.
  assert (∀ a vs, M !! a = Some vs →
            ∃ k g, order !! k = Some g ∧ addr_of g = a ∧
              (variables_of M <$> order) !! k = Some vs) as Hidx.
  { intros a vs Ha. assert (a ∈ dom M) as Hd by (apply elem_of_dom; eauto).
    rewrite (inv_dom _ _ _ _ _ Hinv) in Hd.
    apply elem_of_list_to_set, list_elem_of_fmap in Hd as (g & -> & Hg).
    apply list_elem_of_lookup in Hg as [k Hk]. exists k, g.
    split_and!; try done. rewrite list_lookup_fmap, Hk. simpl.
    unfold variables_of. by rewrite Ha. }
  destruct (Hidx _ _ H1) as (k1 & g1 & Hk1 & <- & Hl1).
  destruct (Hidx _ _ H2) as (k2 & g2 & Hk2 & <- & Hl2).
  assert (k1 = k2) as ->.
  { eapply (join_NoDup_index (variables_of M <$> order)); try done.
    rewrite (inv_vars _ _ _ _ _ Hinv). apply NoDup_seq. }
  by simplify_eq.
Qed.

Lemma built_instruction_lists P0 (ds vs : list Var) :
  Forall (λ instr, is_definition instr = true) (instructions P0) →
  destructs_of (instructions P0 ++ (IDestruct <$> ds)
                ++ [IReturn] ++ (IOutputParam <$> vs)) = ds ∧
  output_params_of (instructions P0 ++ (IDestruct <$> ds)
                    ++ [IReturn] ++ (IOutputParam <$> vs)) = vs.
Proof.
  intros Hdefs. split.
  - rewrite !destructs_of_app, (destructs_of_definitions _ Hdefs),
      destructs_of_destructs. simpl.
    change (ds ++ destructs_of (IOutputParam <$> vs) = ds).
    by rewrite destructs_of_output_params, app_nil_r.
  - rewrite !output_params_of_app, (output_params_of_definitions _ Hdefs),
      output_params_of_destructs. simpl.
    change (output_params_of (IOutputParam <$> vs) = vs).
    by rewrite output_params_of_output_params.
Qed.



(** The variable of every input parameter is destructed before the return
    and is never an output parameter: the destruct comes after the
    declaration of the parameter and before the return.  The requested
    fields are rooted at operations, and the outputs of an operation are not
    the variable of an input. *)
Theorem input_parameters_destructed fields fuel :
  identity_consistent fields → indices_in_range fields →
  Forall (λ f, is_input f = false) fields →
  build_fuel fields ≤ fuel →
  ∃ P M,
    build_procedure fuel fields empty_procedure ∅ = Ok (P, M) ∧
    ∀ n v ty name, instructions P !! n = Some (IInputParam v ty name) →
      v ∈ destructs_of (instructions P) ∧
      (v ∉ output_params_of (instructions P)) ∧
      ∃ j k, n < j ∧ j < k ∧
        instructions P !! j = Some (IDestruct v) ∧
        instructions P !! k = Some IReturn.
Proof.
  intros Hid Hidx Hop Hfuel.
  destruct (build_procedure_returns fields fuel Hid Hidx Hop Hfuel)
    as (order & P0 & M & vs & _ & Hinv & Hvs & Hbuild).
  eexists _, M. split; [exact Hbuild|]. cbn [instructions].
  destruct (built_instruction_lists P0
              (filter (λ v, v ∉ vs) (all_variables M)) vs
              (inv_definitions _ _ _ _ _ Hinv)) as [-> ->].
  intros n v ty name Hin.
  assert (instructions P0 !! n = Some (IInputParam v ty name)) as Hk.
  { apply lookup_app_Some in Hin as [?|[_ Hin]]; [done|].
    apply list_elem_of_lookup_2 in Hin.
    apply elem_of_app in Hin as [(? & ? & _)%list_elem_of_fmap|Hin]; [done|].
    apply elem_of_cons in Hin as [?|(? & ? & _)%list_elem_of_fmap]; done. }
  destruct (Forall2_lookup_r _ _ _ _ _ (inv_instrs _ _ _ _ _ Hinv) Hk)
    as (g & Hg & Hem).
  apply list_elem_of_lookup_2 in Hg.
  unfold emitted in Hem.
  destruct (source g) as [a name' d|a fn ins] eqn:Hsg;
    [|by destruct Hem as (? & ? & _ & _ & _ & ?)].
  destruct Hem as (v' & Ha & [= <- _ _]).
  assert (v ∉ vs) as Hout.
  { intros Hv. apply mapM_Some in Hvs.
    apply list_elem_of_lookup in Hv as [m Hn].
    destruct (Forall2_lookup_r _ _ _ _ _ Hvs Hn) as (f & Hf & Hgv).
    apply list_elem_of_lookup_2 in Hf.
    pose proof Hgv as (ws & Hws & Hvin)%get_field_variable_elem.
    assert (a = addr_of f) as Haf.
    { eapply (variables_disjoint _ _ _ _ _ a (addr_of f)); try done.
      by left. }
    assert (source g = source f) as Hsrc.
    { apply Hid; [by eapply inv_order|by apply all_fields_root|].
      by rewrite Hsg. }
    rewrite Forall_forall in Hop. specialize (Hop f Hf).
    unfold is_input in Hop. by rewrite <-Hsrc, Hsg in Hop. }
  assert (v ∈ filter (λ v, v ∉ vs) (all_variables M)) as Hds.
  { apply list_elem_of_filter. split; [done|].
    unfold all_variables. apply list_elem_of_join. exists [v].
    split; [by left|]. apply list_elem_of_fmap. exists (a, [v]).
    split; [done|]. by apply elem_of_map_to_list. }
  split_and!; [done|done|].
  pose proof (lookup_lt_Some _ _ _ Hk) as Hlt.
  apply list_elem_of_lookup in Hds as [m Hn].
  pose proof (lookup_lt_Some _ _ _ Hn) as Hltn.
  exists (length (instructions P0) + m),
    (length (instructions P0)
     + length (filter (λ v, v ∉ vs) (all_variables M))).
  split_and!; [lia|lia| |].
  - rewrite lookup_app_r, lookup_app_l by (rewrite ?length_fmap; lia).
    replace (length (instructions P0) + m - length (instructions P0))
      with m by lia.
    by rewrite list_lookup_fmap, Hn.
  - rewrite lookup_app_r by lia. rewrite lookup_app_r
      by (rewrite length_fmap; lia).
    rewrite length_fmap.
    by replace (length (instructions P0)
                + length (filter (λ v, v ∉ vs) (all_variables M))
                - length (instructions P0)
                - length (filter (λ v, v ∉ vs) (all_variables M)))
      with 0 by lia.
Qed.

Lemma input_parameters_destructed_witness :
  ∃ P M,
    build_procedure 100 Samples.half_request empty_procedure ∅ = Ok (P, M) ∧
    ∀ n v ty name, instructions P !! n = Some (IInputParam v ty name) →
      v ∈ destructs_of (instructions P) ∧
      (v ∉ output_params_of (instructions P)) ∧
      ∃ j k, n < j ∧ j < k ∧
        instructions P !! j = Some (IDestruct v) ∧
        instructions P !! k = Some IReturn.
Proof.
  apply (input_parameters_destructed Samples.half_request 100);
    [solve_identity|solve_indices|solve_operations|solve_fuel].
Defined.

Lemma collect_outputs_asserts fields M acc vs :
  Exists (λ f, is_input f = true) fields →
  mapM (λ f, get_field_variable f M) fields = Some vs →
  collect_outputs fields M acc = Fail AssertionFailed.
Proof.
  intros Hex. revert acc vs.
  induction Hex as [f fields Hf|f fields _ IH]; intros acc vs Hvs.
  - simpl. by rewrite Hf.
  - apply mapM_Some, Forall2_cons_inv_l in Hvs as (v & vs' & Hv & Hvs & ->).
    apply mapM_Some in Hvs. simpl.
    destruct (is_input f); [done|]. simpl. rewrite Hv. simpl. by eapply IH.
Qed.

(** A request with a bare input does not get a procedure: the worklist
    runs to its end, and the assertion of [add_destructs] stops the build. *)
Theorem build_procedure_rejects_bare_input fields fuel :
  identity_consistent fields → indices_in_range fields →
  Exists (λ f, is_input f = true) fields →
  build_fuel fields ≤ fuel →
  (∃ P M, add_unique_variables fuel fields empty_procedure ∅ = Ok (P, M)) ∧
  build_procedure fuel fields empty_procedure ∅ = Fail AssertionFailed.
Proof.
  intros Hid Hidx Hex Hfuel.
  destruct (add_unique_variables_returns fields fuel Hid Hidx Hfuel)
    as (order & P0 & M & Hadd & Hinv).
  split; [by eauto|].
  destruct (requested_variables _ _ _ _ Hid Hidx Hinv) as [vs Hvs].
  unfold build_procedure. rewrite Hadd. simpl. unfold add_destructs.
  by rewrite (collect_outputs_asserts _ _ _ _ Hex Hvs).
Qed.

Lemma build_procedure_rejects_bare_input_witness :
  (∃ P M, add_unique_variables 100 [Samples.double_A; Samples.field_B]
            empty_procedure ∅ = Ok (P, M)) ∧
  build_procedure 100 [Samples.double_A; Samples.field_B] empty_procedure ∅
  = Fail AssertionFailed.
Proof.
  apply (build_procedure_rejects_bare_input
           [Samples.double_A; Samples.field_B] 100);
    [solve_identity|solve_indices| |solve_fuel].
  apply Exists_cons_tl, Exists_cons_hd. reflexivity.
Defined.

End ProcedureExtras.


Section GatherExtras.

Implicit Types (M : VariableMap) (st : GatherState) (f g : GField).


Lemma subfields_input f : is_input f = true → subfields f = [f].
Proof.
  unfold is_input. rewrite subfields_unfold. by destruct (source f).
Qed.

Lemma input_variable f M :
  is_input f = true → get_field_variable f M = M !! addr_of f ≫= head.
Proof. unfold is_input, get_field_variable. by destruct (source f). Qed.

Section AfterBuild.

Context (fields order : list GField) (P0 : MFProcedure) (M : VariableMap).
Context (tr0 : list Event) (params0 : list Param).
Hypothesis Hid : identity_consistent fields.
Hypothesis Hidx : indices_in_range fields.
Hypothesis Hinv : build_inv fields order [] P0 M.

Lemma input_variable_injective a1 a2 v :
  M !! a1 ≫= head = Some v → M !! a2 ≫= head = Some v → a1 = a2.
Proof using Hinv.
  destruct (M !! a1) as [vs1|] eqn:H1; [|done].
  destruct (M !! a2) as [vs2|] eqn:H2; [|done]. simpl. intros Hv1 Hv2.
  eapply (variables_disjoint _ _ _ _ _ a1 a2 vs1 vs2 v); try done.
  - destruct vs1; simplify_eq/=. by left.
  - destruct vs2; simplify_eq/=. by left.
Qed.

Lemma gather_visit_complete f st called :
  f ∈ all_fields fields →
  gather_inv fields M tr0 st called →
  gather_complete fields M params0
    (mkGatherState (f :: gs_stack st) (gs_computed st) (gs_params st)
                   (gs_inputs st) (gs_trace st)) called →
  ∃ st' called',
    gather_visit f M st = Ok st' ∧
    gather_inv fields M tr0 st' called' ∧
    gather_complete fields M params0 st' called' ∧
    gs_stack st'
    = (if is_input f then gs_stack st
       else push_all (inputs_of (source f)) (gs_stack st)).
Proof using Hid Hidx Hinv.
  intros Hf Hg (Hcomp & Hcov & Hlen). simpl in Hcomp, Hcov, Hlen.
  assert (is_Some (get_field_variable f M)) as [v Hv].
  { eapply resolved_variable; [done..|]. by eapply resolved_closed. }
  assert (∃ st', gather_visit f M st = Ok st') as [st' Hvisit].
  { unfold gather_visit. rewrite Hv. simpl.
    destruct (source f); [destruct (decide _)|]; eauto. }
  revert Hvisit. unfold gather_visit.
  destruct (is_input f) eqn:Hin.
  - pose proof (input_variable f M Hin) as Hhead. rewrite Hv in Hhead.
    symmetry in Hhead. unfold is_input in Hin.
    destruct (source f) as [a name d|] eqn:Hs; [|done]. simpl in Hhead.
    rewrite Hv. simpl.
    assert (∀ f', f' ∈ subfields f → f' = f) as Hsub.
    { intros f'. rewrite subfields_input by (unfold is_input; by rewrite Hs).
      by intros ->%list_elem_of_singleton. }
    destruct (decide (v ∈ gs_computed st)) as [Hc|Hc].
    + intros [= <-]. exists st, called. split_and!; try done.
      split_and!; try done.
      intros f' Hf' Hin'. destruct (Hcov f' Hf' Hin') as [?|(s & Hs' & Hfs)];
        [by left|].
      apply elem_of_cons in Hs' as [->|Hs']; [|by eauto].
      left. apply Hsub in Hfs as ->. rewrite Hs. simpl.
      destruct (Hcomp v Hc) as (a' & Ha' & Hv').
      by rewrite (input_variable_injective a a' v).
    + intros [= <-].
      eexists _, (called ++ [a]). split; [done|]. split_and!; simpl.
      * destruct Hg as [Htr Hnd Hcm Hcl Hst]. split; simpl.
        -- by rewrite Htr, fmap_app, app_assoc.
        -- apply NoDup_app. split_and!; [done| |apply NoDup_singleton].
           intros b Hb ->%list_elem_of_singleton.
           destruct (Hcm _ Hb) as (v' & Hv' & Hin'). congruence.
        -- intros b [Hb| ->%list_elem_of_singleton]%elem_of_app.
           ++ destruct (Hcm _ Hb) as (v' & Hv' & Hin'). exists v'.
              split; [done|]. apply elem_of_union. by right.
           ++ exists v. split; [done|]. apply elem_of_union. left.
              by apply elem_of_singleton.
        -- intros b [Hb| ->%list_elem_of_singleton]%elem_of_app; [by auto|].
           exists f. unfold is_input. by rewrite Hs.
        -- done.
      * split_and!; simpl.
        -- intros v' [->%elem_of_singleton|Hv']%elem_of_union.
           ++ exists a. split; [|done]. apply elem_of_app. right. by left.
           ++ destruct (Hcomp v' Hv') as (a' & Ha' & ?). exists a'.
              split; [|done]. apply elem_of_app. by left.
        -- intros f' Hf' Hin'.
           destruct (Hcov f' Hf' Hin') as [?|(s & Hs' & Hfs)].
           ++ left. apply elem_of_app. by left.
           ++ apply elem_of_cons in Hs' as [->|Hs']; [|by eauto].
              left. apply Hsub in Hfs as ->. rewrite Hs. simpl.
              apply elem_of_app. right. by left.
        -- rewrite !length_app, Hlen. simpl. lia.
      * done.
  - unfold is_input in Hin.
    destruct (source f) as [|a fn ins] eqn:Hs; [done|]. intros [= <-].
    exists (mkGatherState (push_all ins (gs_stack st)) (gs_computed st)
              (gs_params st) (gs_inputs st) (gs_trace st)), called.
    split; [done|]. split_and!; simpl; try done.
    + destruct Hg as [Htr Hnd Hcm Hcl Hst]. split; simpl; try done.
      intros g Hgin. rewrite push_all_rev in Hgin.
      apply elem_of_app in Hgin as [Hgin|Hgin]; [|by auto].
      apply elem_of_reverse_2 in Hgin. rewrite reverse_involutive in Hgin.
      eapply all_fields_input; [done|]. by rewrite Hs.
    + split_and!; simpl; try done.
      intros f' Hf' Hin'. destruct (Hcov f' Hf' Hin') as [?|(s & Hs' & Hfs)];
        [by left|]. right.
      apply elem_of_cons in Hs' as [->|Hs'].
      * rewrite subfields_unfold, Hs in Hfs. simpl in Hfs.
        apply elem_of_cons in Hfs as [->|Hfs].
        { unfold is_input in Hin'. by rewrite Hs in Hin'. }
        apply list_elem_of_bind in Hfs as (j & Hfj & Hj). exists j.
        split; [|done]. rewrite push_all_rev. apply elem_of_app. left.
        by apply elem_of_reverse_2.
      * exists s. split; [|done]. rewrite push_all_rev. apply elem_of_app.
        by right.
Qed.

Lemma gather_loop_complete fuel st called :
  gather_inv fields M tr0 st called →
  gather_complete fields M params0 st called →
  stack_visits (gs_stack st) < fuel →
  ∃ st' called',
    gather_loop fuel M st = Ok st' ∧
    gather_inv fields M tr0 st' called' ∧
    gather_complete fields M params0 st' called' ∧
    gs_stack st' = [].
Proof using Hid Hidx Hinv.
  revert st called. induction fuel as [|fuel IH]; intros st called Hg Hc Hfuel.
  { lia. }
  simpl. destruct (gs_stack st) as [|f stack] eqn:Hst.
  { exists st, called. by rewrite Hst. }
  set (st0 := mkGatherState stack (gs_computed st) (gs_params st)
                (gs_inputs st) (gs_trace st)).
  assert (f ∈ all_fields fields) as Hf.
  { eapply gi_stack; [done|]. rewrite Hst. by left. }
  assert (gather_inv fields M tr0 st0 called) as Hg0.
  { destruct Hg as [Htr Hnd Hcm Hcl Hs]. split; simpl; try done.
    intros g Hgin. apply Hs. rewrite Hst. by right. }
  destruct (gather_visit_complete f st0 called Hf Hg0)
    as (st1 & called1 & Hvisit & Hg1 & Hc1 & Hstack1).
  { destruct Hc as (? & ? & ?). unfold gather_complete. simpl.
    by rewrite <-Hst. }
  rewrite Hvisit. simpl. apply (IH st1 called1 Hg1 Hc1).
  rewrite Hstack1. unfold stack_visits in Hfuel. simpl in Hfuel.
  fold (stack_visits stack) in Hfuel. simpl.
  unfold is_input. destruct (source f) as [|a fn ins] eqn:Hs; simpl.
  - simpl in Hfuel. lia.
  - rewrite visits_operation in Hfuel. rewrite stack_visits_push. lia.
Qed.

End AfterBuild.

(** After a build, the input gatherer returns, asks every distinct input
    reachable from the request for its data exactly once, and binds one
    read-only parameter for each: as many as the procedure declares input
    parameters. *)
Theorem gather_binds_each_input_once fields fuel mask tr :
  identity_consistent fields → indices_in_range fields →
  Forall (λ f, is_input f = false) fields →
  build_fuel fields ≤ fuel → stack_visits fields < fuel →
  ∃ P M params r_inputs called,
    build_procedure fuel fields empty_procedure ∅ = Ok (P, M) ∧
    gather_inputs fuel fields M mask [] [] tr
    = Ok (params, r_inputs, tr ++ (EvGetVArray <$> called)) ∧
    NoDup called ∧
    list_to_set called = input_addresses fields ∧
    length params
    = length (filter (λ instr, is_input_param instr = true) (instructions P)).
Proof.
  intros Hid Hidx Hop Hfuel Hvisits.
  destruct (build_procedure_returns fields fuel Hid Hidx Hop Hfuel)
    as (order & P0 & M & vs & _ & Hinv & _ & Hbuild).
  set (st0 := mkGatherState (push_all fields []) ∅ [] [] tr).
  assert (∀ f, f ∈ fields → f ∈ push_all fields []) as Hpush.
  { intros f Hf. rewrite push_all_rev, app_nil_r. by apply elem_of_reverse_2. }
  assert (gather_inv fields M tr st0 []) as Hg0.
  { split; simpl.
    - by rewrite app_nil_r.
    - constructor.
    - by intros a ?%elem_of_nil.
    - by intros a ?%elem_of_nil.
    - intros f Hf. rewrite push_all_rev, app_nil_r in Hf.
      apply elem_of_reverse_2 in Hf. rewrite reverse_involutive in Hf.
      by apply all_fields_root. }
  assert (gather_complete fields M [] st0 []) as Hc0.
  { split_and!; simpl; [by intros v ?%elem_of_empty| |done].
    intros f (r & Hf & Hr)%list_elem_of_bind _. right. exists r. auto. }
  destruct (gather_loop_complete fields order P0 M tr [] Hid Hidx Hinv
              fuel st0 [] Hg0 Hc0)
    as (st' & called & Hloop & Hg & (_ & Hcov & Hlen) & Hstack).
  { simpl. rewrite stack_visits_push. unfold stack_visits at 2. simpl. lia. }
  destruct Hg as [Htr Hnd _ Hcalled _].
  eexists _, M, (gs_params st'), (gs_inputs st'), called.
  split; [exact Hbuild|]. split_and!.
  - unfold gather_inputs. fold st0. rewrite Hloop. simpl. by rewrite Htr.
  - done.
  - apply set_eq. intros a. unfold input_addresses.
    rewrite !elem_of_list_to_set, list_elem_of_fmap. split.
    + intros (f & Hf & Hin & <-)%Hcalled. exists f. split; [done|].
      by apply list_elem_of_filter.
    + intros (f & -> & [Hin Hf]%list_elem_of_filter).
      destruct (Hcov f Hf Hin) as [?|(s & Hs & _)]; [done|].
      rewrite Hstack in Hs. by apply elem_of_nil in Hs.
  - cbn [instructions].
    assert (Forall (λ instr, is_definition instr = false)
              ((IDestruct <$> filter (λ v, v ∉ vs) (all_variables M))
               ++ [IReturn] ++ (IOutputParam <$> vs))) as Hrest.
    { apply Forall_app. split; [|apply Forall_cons; split; [done|]];
        apply Forall_fmap, Forall_true; done. }
    destruct (count_not_definitions _ Hrest) as [Hrest1 _].
    destruct (emitted_counts _ _ _ (inv_instrs _ _ _ _ _ Hinv)) as [Hc1 _].
    rewrite filter_app, Hrest1, app_nil_r, Hc1.
    rewrite (order_addresses fields order P0 M true Hid Hinv).
    fold (input_addresses fields).
    assert (input_addresses fields = list_to_set called) as ->.
    { apply set_eq. intros a. unfold input_addresses.
      rewrite !elem_of_list_to_set, list_elem_of_fmap. split.
      - intros (f & -> & [Hin Hf]%list_elem_of_filter).
        destruct (Hcov f Hf Hin) as [?|(s & Hs & _)]; [done|].
        rewrite Hstack in Hs. by apply elem_of_nil in Hs.
      - intros (f & Hf & Hin & <-)%Hcalled. exists f. split; [done|].
        by apply list_elem_of_filter. }
    rewrite size_list_to_set by done. simpl in Hlen. lia.
Qed.

Lemma gather_binds_each_input_once_witness :
  ∃ P M params r_inputs called,
    build_procedure 100 Samples.shared_request empty_procedure ∅ = Ok (P, M) ∧
    gather_inputs 100 Samples.shared_request M (IndexRange 3) [] [] []
    = Ok (params, r_inputs, [] ++ (EvGetVArray <$> called)) ∧
    NoDup called ∧
    list_to_set called = input_addresses Samples.shared_request ∧
    length params
    = length (filter (λ instr, is_input_param instr = true) (instructions P)).
Proof.
  apply (gather_binds_each_input_once Samples.shared_request 100
           (IndexRange 3) []);
    [solve_identity|solve_indices|solve_operations|solve_fuel|solve_fuel].
Defined.

End GatherExtras.


Section BareRequests.

Implicit Types (f : GField) (w : World) (o : GMutableSpan).

Lemma elem_of_reverse_1 {A} (x : A) l : x ∈ reverse l → x ∈ l.
Proof. by rewrite elem_of_reverse. Qed.

Lemma direct_pass_bare mask (pairs : list (GField * GMutableSpan)) w :
  Forall (λ p, is_input p.1 = true) pairs →
  NoDup ((λ p, span_data p.2) <$> pairs) →
  (∀ p, p ∈ pairs → ∃ block, memory w !! span_data p.2 = Some block ∧
     ∀ i, i ∈ mask → i < length block) →
  ∃ w',
    direct_pass mask pairs w = (w', Ok tt) ∧
    (∀ p block a name d, p ∈ pairs →
       memory w !! span_data p.2 = Some block →
       source p.1 = FieldInput a name d →
       ∃ block', memory w' !! span_data p.2 = Some block' ∧
         length block' = length block ∧
         ∀ i, i < length block →
           block' !! i = if decide (i ∈ mask) then Some (d i) else block !! i) ∧
    (∀ ptr, ptr ∉ ((λ p, span_data p.2) <$> pairs) →
       memory w' !! ptr = memory w !! ptr).
Proof.
  revert w. induction pairs as [|[f o] pairs IH]; intros w Hbare Hnd Hmem.
  { exists w. split_and!; [done| |done]. by intros p ? ? ? ? ?%elem_of_nil. }
  apply Forall_cons in Hbare as [Hf Hbare].
  rewrite fmap_cons in Hnd. apply NoDup_cons in Hnd as [Hfresh Hnd].
  simpl in Hf, Hfresh. unfold is_input in Hf.
  destruct (source f) as [a name d|] eqn:Hs; [|done].
  destruct (Hmem (f, o)) as (block & Hblock & Hsize); [by left|].
  simpl in Hblock.
  destruct (materialize_writes d mask (span_data o) (memory w) block
              Hblock Hsize) as (block' & Hmat & Hlen & Hval).
  set (w1 := mkWorld (<[span_data o := block']> (memory w))
               (trace w ++ [EvGetVArray a])).
  destruct (IH w1 Hbare Hnd) as (w' & Hpass & Hdata & Hframe).
  { intros p Hp. destruct (Hmem p) as (b & Hb & Hsz); [by right|].
    exists b. split; [|done]. simpl. rewrite lookup_insert_ne; [done|].
    intros Heq. apply Hfresh, list_elem_of_fmap. by exists p. }
  exists w'. split_and!.
  - simpl. rewrite Hs. unfold mbind, eval_bind, record, on_memory. simpl.
    rewrite Hmat. exact Hpass.
  - intros p b a' name' d' [->|Hp]%elem_of_cons Hb Hsp.
    + simpl in Hb, Hsp |- *. rewrite Hs in Hsp. simplify_eq.
      exists block'. split_and!; try done.
      rewrite (Hframe _ Hfresh). simpl. by rewrite lookup_insert_eq.
    + apply (Hdata p b a' name' d' Hp); [|done]. simpl.
      rewrite lookup_insert_ne; [done|].
      intros Heq. apply Hfresh, list_elem_of_fmap. by exists p.
  - intros ptr Hptr. rewrite fmap_cons, not_elem_of_cons in Hptr.
    destruct Hptr as [Hne Hptr]. rewrite (Hframe ptr Hptr). simpl in Hne |- *.
    by rewrite lookup_insert_ne.
Qed.

Lemma evaluate_fields_all_bare fuel fields mask outputs w :
  length fields = length outputs →
  Forall (λ f, is_input f = true) fields →
  evaluate_fields fuel fields mask outputs w
  = direct_pass mask (reverse (zip fields outputs)) w.
Proof.
  intros Hlen Hbare. rewrite evaluate_fields_phases by done.
  assert (non_input_pairs fields outputs = []) as ->.
  { destruct (non_input_pairs fields outputs) as [|[f o] ps] eqn:Hps; [done|].
    destruct (non_input_pairs_fields fields outputs f Hlen) as [Hf Hin].
    { rewrite Hps. by left. }
    rewrite Forall_forall in Hbare. specialize (Hbare f Hf). congruence. }
  simpl. unfold mbind, eval_bind, mret, eval_ret.
  by destruct (direct_pass mask (reverse (zip fields outputs)) w)
    as [w1 [[]|e]].
Qed.

(** A request of bare inputs only, with one block per buffer and every
    block long enough for the mask: the call returns, constructs no
    procedure, writes the data of the k-th input at the masked elements of
    the k-th block, and leaves the other elements and the other blocks as
    they were. *)
Theorem bare_request_materialized fuel fields mask outputs w :
  length fields = length outputs →
  Forall (λ f, is_input f = true) fields →
  NoDup (span_data <$> outputs) →
  (∀ o, o ∈ outputs → ∃ block, memory w !! span_data o = Some block ∧
     ∀ i, i ∈ mask → i < length block) →
  ∃ w',
    evaluate_fields fuel fields mask outputs w = (w', Ok tt) ∧
    procedures_built (trace w') = procedures_built (trace w) ∧
    (∀ k f o block a name d,
       fields !! k = Some f → outputs !! k = Some o →
       memory w !! span_data o = Some block →
       source f = FieldInput a name d →
       ∃ block', memory w' !! span_data o = Some block' ∧
         length block' = length block ∧
         ∀ i, i < length block →
           block' !! i = if decide (i ∈ mask) then Some (d i) else block !! i) ∧
    (∀ ptr, ptr ∉ (span_data <$> outputs) →
       memory w' !! ptr = memory w !! ptr).
Proof.
  intros Hlen Hbare Hnd Hmem.
  assert (((λ p : GField * GMutableSpan, span_data p.2)
             <$> reverse (zip fields outputs))
          = reverse (span_data <$> outputs)) as Hptrs.
  { rewrite fmap_reverse. f_equal.
    rewrite <-(snd_zip fields outputs) at 2 by lia.
    by rewrite <-list_fmap_compose. }
  destruct (direct_pass_bare mask (reverse (zip fields outputs)) w)
    as (w' & Hpass & Hdata & Hframe).
  - apply Forall_forall. intros [f o] Hp%elem_of_reverse_1.
    apply elem_of_zip_l in Hp. rewrite Forall_forall in Hbare. by apply Hbare.
  - rewrite Hptrs. by rewrite reverse_Permutation.
  - intros [f o] Hp%elem_of_reverse_1. apply elem_of_zip_r in Hp.
    by apply Hmem.
  - exists w'. rewrite evaluate_fields_all_bare by done. split_and!.
    + done.
    + apply direct_pass_trace in Hpass as (asked & -> & _).
      by rewrite procedures_built_app, procedures_built_get, app_nil_r.
    + intros k f o block a name d Hf Ho Hb Hs.
      apply (Hdata (f, o) block a name d); try done.
      apply elem_of_reverse_2, list_elem_of_lookup. exists k.
      apply lookup_zip_with_Some. by exists f, o.
    + intros ptr Hptr. apply Hframe. rewrite Hptrs.
      by rewrite elem_of_reverse.
Qed.

Lemma bare_request_materialized_witness :
  ∃ w',
    evaluate_fields 0 [Samples.field_A; Samples.field_B] [0; 2]
      [Samples.out_100; Samples.out_200] Samples.world = (w', Ok tt) ∧
    procedures_built (trace w') = procedures_built (trace Samples.world) ∧
    (∀ k f o block a name d,
       [Samples.field_A; Samples.field_B] !! k = Some f →
       [Samples.out_100; Samples.out_200] !! k = Some o →
       memory Samples.world !! span_data o = Some block →
       source f = FieldInput a name d →
       ∃ block', memory w' !! span_data o = Some block' ∧
         length block' = length block ∧
         ∀ i, i < length block →
           block' !! i
           = if decide (i ∈ [0; 2]) then Some (d i) else block !! i) ∧
    (∀ ptr, ptr ∉ (span_data <$> [Samples.out_100; Samples.out_200]) →
       memory w' !! ptr = memory Samples.world !! ptr).
Proof.
  apply (bare_request_materialized 0 [Samples.field_A; Samples.field_B] [0; 2]
           [Samples.out_100; Samples.out_200] Samples.world).
  - reflexivity.
  - repeat constructor.
  - vm_compute. repeat constructor; set_solver.
  - intros o Ho. vm_compute in Ho.
    repeat (apply elem_of_cons in Ho as [->|Ho]);
      [..|by apply elem_of_nil in Ho];
      (eexists; split; [vm_compute; reflexivity|]);
      intros i Hi; vm_compute in Hi;
      repeat (apply elem_of_cons in Hi as [->|Hi]);
      try (by apply elem_of_nil in Hi); simpl; lia.
Defined.

End BareRequests.


Section ParameterOrder.

Implicit Types (M : VariableMap) (P : MFProcedure).

Lemma contains_empty a : contains ∅ a = false.
Proof. by apply contains_false. Qed.

Lemma contains_insert_eq M a vs : contains (<[a := vs]> M) a = true.
Proof.
  apply contains_true. rewrite dom_insert_L. apply elem_of_union. left.
  by apply elem_of_singleton.
Qed.

Lemma contains_insert_ne M a b vs :
  a ≠ b → contains (<[a := vs]> M) b = contains M b.
Proof. intros Hne. unfold contains. by rewrite lookup_insert_ne. Qed.

(** An operation on two distinct bare inputs: the worklist declares the
    parameter of the first input before the parameter of the second. *)
Lemma binary_operation_variables a a1 a2 fn n1 n2 d1 d2 i1 i2 t1 t2 k t fuel :
  a1 ≠ a2 → a ≠ a1 → a ≠ a2 → 5 ≤ fuel →
  add_unique_variables fuel
    [mkGField (FieldOperation a fn
       [mkGField (FieldInput a1 n1 d1) i1 t1;
        mkGField (FieldInput a2 n2 d2) i2 t2]) k t]
    empty_procedure ∅
  = Ok (mkProcedure
          [IInputParam 0 t1 n1; IInputParam 1 t2 n2;
           ICall fn [0; 1] (seq 2 (mf_outputs fn))]
          (2 + mf_outputs fn),
        <[a := seq 2 (mf_outputs fn)]> (<[a2 := [1]]> (<[a1 := [0]]> ∅))).
Proof.
  intros H12 H1 H2 Hfuel.
  do 5 (destruct fuel as [|fuel]; [lia|]). clear Hfuel.
  unfold add_unique_variables. cbn [push_all foldl].
  (* the operation is blocked on its first input *)
  cbn [visit_loop]. unfold visit_top at 1.
  cbn [source address]. rewrite contains_empty.
  cbn [is_input source source_is_input add_variables_for_operation find
       address negb]. rewrite contains_empty. cbn [negb].
  (* the first input is declared *)
  cbn [visit_loop]. unfold visit_top at 1.
  cbn [source address]. rewrite contains_empty.
  cbn [is_input source source_is_input add_variables_for_input tail cpp_type].
  unfold add_input_parameter at 1, map_add at 1. rewrite lookup_empty.
  cbn [empty_procedure instructions num_variables app].
  (* the operation is blocked on its second input *)
  cbn [visit_loop]. unfold visit_top at 1.
  cbn [source address]. rewrite contains_insert_ne, contains_empty by done.
  cbn [is_input source source_is_input add_variables_for_operation find
       address negb].
  rewrite contains_insert_eq. cbn [negb].
  rewrite contains_insert_ne, contains_empty by done. cbn [negb].
  (* the second input is declared *)
  cbn [visit_loop]. unfold visit_top at 1.
  cbn [source address]. rewrite contains_insert_ne, contains_empty by done.
  cbn [is_input source source_is_input add_variables_for_input tail cpp_type].
  unfold add_input_parameter at 1, map_add at 1.
  rewrite lookup_insert_ne, lookup_empty by done.
  cbn [instructions num_variables app].
  (* the call is emitted *)
  cbn [visit_loop]. unfold visit_top at 1.
  cbn [source address].
  rewrite !contains_insert_ne, contains_empty by done.
  cbn [is_input source source_is_input add_variables_for_operation find
       address negb].
  rewrite contains_insert_eq, contains_insert_ne, contains_insert_eq by done.
  cbn [negb mapM]. unfold get_field_variable. cbn [source].
  rewrite lookup_insert_eq, lookup_insert_ne, lookup_insert_eq by done.
  simpl. rewrite !lookup_insert_ne, lookup_empty by done. simpl.
  by destruct fuel.
Qed.

(** An operation on two distinct bare inputs, requested alone: the built
    procedure declares the parameter of the first input, then the parameter
    of the second, and the input gatherer binds the data of the second
    input, then the data of the first. *)
Theorem gather_reverses_declaration_order
    a a1 a2 fn n1 n2 d1 d2 i1 i2 t1 t2 k t fuel mask tr :
  a1 ≠ a2 → a ≠ a1 → a ≠ a2 → k < mf_outputs fn → 5 ≤ fuel →
  let request :=
    [mkGField (FieldOperation a fn
       [mkGField (FieldInput a1 n1 d1) i1 t1;
        mkGField (FieldInput a2 n2 d2) i2 t2]) k t] in
  ∃ P M,
    build_procedure fuel request empty_procedure ∅ = Ok (P, M) ∧
    filter (λ instr, is_input_param instr = true) (instructions P)
    = [IInputParam 0 t1 n1; IInputParam 1 t2 n2] ∧
    gather_inputs fuel request M mask [] [] tr
    = Ok ([ReadonlySingleInput d2 n2; ReadonlySingleInput d1 n1], [d2; d1],
          tr ++ [EvGetVArray a2; EvGetVArray a1]).
Proof.
  intros H12 H1 H2 Hk Hfuel request.
  set (M := <[a := seq 2 (mf_outputs fn)]> (<[a2 := [1]]> (<[a1 := [0]]> ∅))
         : VariableMap).
  eexists _, M.
  assert (get_field_variable
            (mkGField (FieldOperation a fn
               [mkGField (FieldInput a1 n1 d1) i1 t1;
                mkGField (FieldInput a2 n2 d2) i2 t2]) k t) M
          = Some (2 + k)) as Hout.
  { unfold get_field_variable, M. cbn [source source_output_index].
    rewrite lookup_insert_eq. simpl. by apply lookup_seq_lt. }
  split_and!.
  - unfold build_procedure, request.
    rewrite (binary_operation_variables a a1 a2 fn n1 n2 d1 d2 i1 i2 t1 t2 k t
               fuel H12 H1 H2 Hfuel).
    fold M. cbn [mbind result_bind]. unfold add_destructs.
    cbn [collect_outputs].
    cbn [is_input source source_is_input negb BLI_assert mbind result_bind].
    rewrite Hout. cbn [defined mbind result_bind collect_outputs].
    rewrite foldl_add_destruct.
    unfold add_return, emit. cbn [add_output_parameters instructions
      num_variables mbind result_bind]. rewrite Hout.
    cbn [defined mbind result_bind add_output_parameters add_output_parameter
         emit instructions num_variables].
    unfold add_output_parameter, emit. cbn [instructions num_variables].
    rewrite <-!app_assoc. cbn [app].
    match goal with
    | |- context [validate ?p] => assert (validate p = true) as ->; [|done]
    end.
    unfold validate. cbn [instructions validate_from forallb].
    rewrite !bool_decide_eq_true_2 by set_solver. cbn [andb].
    rewrite validate_from_app, validate_destructs. cbn [andb validate_from].
    rewrite bool_decide_eq_true_2; [done|].
    rewrite produced_destructs.
    apply elem_of_union. right. apply elem_of_union. left.
    apply elem_of_list_to_set, elem_of_seq. lia.
  - cbn [instructions app filter].
    rewrite !filter_cons. cbn [is_input_param].
    rewrite !decide_True, decide_False by done. f_equal. f_equal.
    apply count_not_definitions.
    apply Forall_app. split; [|by repeat constructor].
    by apply Forall_fmap, Forall_true.
  - do 5 (destruct fuel as [|fuel]; [lia|]).
    unfold gather_inputs, request. cbn [push_all foldl].
    cbn [gather_loop gs_stack gs_computed gs_params gs_inputs gs_trace
         gather_visit source mbind result_bind push_all foldl].
    unfold get_field_variable, M. cbn [source].
    rewrite lookup_insert_ne, lookup_insert_eq by done.
    cbn [mbind option_bind head defined result_bind].
    rewrite decide_False by set_solver.
    cbn [gather_loop gs_stack gs_computed gs_params gs_inputs gs_trace
         gather_visit source mbind result_bind].
    unfold get_field_variable. cbn [source].
    rewrite !lookup_insert_ne, lookup_insert_eq by done.
    cbn [mbind option_bind head defined result_bind].
    rewrite decide_False by set_solver.
    cbn [gather_loop gs_stack gs_computed gs_params gs_inputs gs_trace
         mbind result_bind app].
    by rewrite <-app_assoc.
Qed.

Lemma gather_reverses_declaration_order_witness :
  ∃ P M,
    build_procedure 100 [Samples.A_minus_B] empty_procedure ∅ = Ok (P, M) ∧
    filter (λ instr, is_input_param instr = true) (instructions P)
    = [IInputParam 0 0 "A"; IInputParam 1 0 "B"] ∧
    gather_inputs 100 [Samples.A_minus_B] M (IndexRange 1) [] [] []
    = Ok ([ReadonlySingleInput (λ _, 3%Z) "B";
           ReadonlySingleInput (λ i, (Z.of_nat i + 1)%Z) "A"],
          [λ _, 3%Z; λ i, (Z.of_nat i + 1)%Z],
          [] ++ [EvGetVArray 2; EvGetVArray 1]).
Proof.
  apply (gather_reverses_declaration_order 13 1 2 Samples.subtract "A" "B"
           (λ i, (Z.of_nat i + 1)%Z) (λ _, 3%Z) 0 0 0 0 0 0 100
           (IndexRange 1) []); simpl; lia.
Defined.

End ParameterOrder.


Section SharedVariables.

Implicit Types (M : VariableMap) (P : MFProcedure) (f g : GField).

Lemma join_NoDup_part {A} (ls : list (list A)) l :
  NoDup (mjoin ls) → l ∈ ls → NoDup l.
Proof.
  induction ls as [|l' ls IH]; [by intros _ ?%elem_of_nil|].
  simpl. intros (Hl' & _ & Hls)%NoDup_app [->|Hin]%elem_of_cons; auto.
Qed.

Lemma recorded_NoDup fields order stack P M a vs :
  build_inv fields order stack P M → M !! a = Some vs → NoDup vs.
Proof.
  intros Hinv Ha.
  apply (join_NoDup_part (variables_of M <$> order)).
  - rewrite (inv_vars _ _ _ _ _ Hinv). apply NoDup_seq.
  - assert (a ∈ dom M) as Hd by (apply elem_of_dom; eauto).
    rewrite (inv_dom _ _ _ _ _ Hinv) in Hd.
    apply elem_of_list_to_set, list_elem_of_fmap in Hd as (g & -> & Hg).
    apply list_elem_of_fmap. exists g. split; [|done].
    unfold variables_of. by rewrite Ha.
Qed.

(** After a build, two reachable fields resolve to the same variable
    exactly when their sources are the same object and, on an operation,
    they select the same output: sharing follows the identity of the source,
    and the output index of a field on an input is not looked at. *)
Theorem shared_variable_iff_same_output fields fuel :
  identity_consistent fields → indices_in_range fields →
  Forall (λ f, is_input f = false) fields →
  build_fuel fields ≤ fuel →
  ∃ P M,
    build_procedure fuel fields empty_procedure ∅ = Ok (P, M) ∧
    ∀ f1 f2, f1 ∈ all_fields fields → f2 ∈ all_fields fields →
      (get_field_variable f1 M = get_field_variable f2 M
       ↔ addr_of f1 = addr_of f2 ∧
         (is_input f1 = false →
          source_output_index f1 = source_output_index f2)).
Proof.
  intros Hid Hidx Hop Hfuel.
  destruct (build_procedure_returns fields fuel Hid Hidx Hop Hfuel)
    as (order & P0 & M & vs & _ & Hinv & _ & Hbuild).
  eexists _, M. split; [exact Hbuild|]. intros f1 f2 Hf1 Hf2.
  assert (∀ f, f ∈ all_fields fields →
            ∃ v ws, get_field_variable f M = Some v ∧
              M !! addr_of f = Some ws ∧ v ∈ ws) as Hres.
  { intros f Hf.
    destruct (resolved_variable _ _ _ _ _ f Hid Hidx Hinv Hf) as [v Hv].
    { by eapply resolved_closed. }
    destruct (get_field_variable_elem _ _ _ Hv) as (ws & ? & ?). eauto. }
  destruct (Hres f1 Hf1) as (v1 & ws1 & Hv1 & Hws1 & Hin1).
  destruct (Hres f2 Hf2) as (v2 & ws2 & Hv2 & Hws2 & Hin2).
  split.
  - intros Heq. rewrite Hv1, Hv2 in Heq. injection Heq as <-.
    assert (addr_of f1 = addr_of f2) as Haddr
      by by eapply (variables_disjoint _ _ _ _ _ _ _ ws1 ws2 v1).
    split; [done|]. intros Hop1.
    pose proof (Hid f1 f2 Hf1 Hf2 Haddr) as Hsrc.
    unfold get_field_variable, is_input in *. rewrite <-Hsrc in Hv2.
    destruct (source f1) as [|a fn ins]; [done|]. simpl in *.
    rewrite Hws1 in Hv1, Hv2. simpl in Hv1, Hv2.
    eapply NoDup_lookup; [|done..]. by eapply recorded_NoDup.
  - intros [Haddr Hindex].
    pose proof (Hid f1 f2 Hf1 Hf2 Haddr) as Hsrc.
    unfold get_field_variable, is_input in *. rewrite <-Hsrc.
    destruct (source f1) as [|a fn ins]; [done|]. simpl in *.
    by rewrite Hindex.
Qed.

Lemma shared_variable_iff_same_output_witness :
  ∃ P M,
    build_procedure 100 Samples.shared_request empty_procedure ∅ = Ok (P, M) ∧
    ∀ f1 f2, f1 ∈ all_fields Samples.shared_request →
      f2 ∈ all_fields Samples.shared_request →
      (get_field_variable f1 M = get_field_variable f2 M
       ↔ addr_of f1 = addr_of f2 ∧
         (is_input f1 = false →
          source_output_index f1 = source_output_index f2)).
Proof.
  apply (shared_variable_iff_same_output Samples.shared_request 100);
    [solve_identity|solve_indices|solve_operations|solve_fuel].
Defined.

End SharedVariables.


Section FilmScale.

Context (ops : FloatOps).

Lemma film_scale_pair_agrees_aux (kfilm_convert : KernelFilmConvert ops)
    (buffer : Z → float ops) :
  film_get_scale_and_scale_exposure ops kfilm_convert buffer
  = (film_get_scale ops kfilm_convert buffer,
     film_get_scale_exposure ops kfilm_convert buffer).
Proof.
  unfold film_get_scale_and_scale_exposure, film_get_scale_exposure,
    film_get_scale.
  destruct (decide (pass_sample_count ops kfilm_convert = PASS_UNUSED ops));
    [done|].
  by destruct (nonzero (pass_use_filter ops kfilm_convert)),
    (nonzero (pass_use_exposure ops kfilm_convert)).
Qed.

(** The helper that computes the scale and the scale with exposure in one
    go gives what the two separate helpers give, for every conversion
    setting and every buffer. *)
Theorem film_scale_pair_agrees (kfilm_convert : KernelFilmConvert ops)
    (buffer : Z → float ops) :
  film_get_scale_and_scale_exposure ops kfilm_convert buffer
  = (film_get_scale ops kfilm_convert buffer,
     film_get_scale_exposure ops kfilm_convert buffer).
Proof. apply film_scale_pair_agrees_aux. Qed.

(** A float4 pass and the combined pass fail where the float3 pass fails,
    and where they return they write four channels of which the first three
    are the channels of the float3 pass; the fourth channel of the combined
    pass is the alpha of the fourth channel of the float4 pass. *)
Theorem film_pass_pixel_colors_agree (kfilm_convert : KernelFilmConvert ops)
    (buffer : Z → float ops) :
  match film_get_pass_pixel_float3 ops kfilm_convert buffer with
  | Ok rgb =>
      ∃ a, film_get_pass_pixel_float4 ops kfilm_convert buffer = Ok (rgb ++ [a]) ∧
        film_get_pass_pixel_combined ops kfilm_convert buffer
        = Ok (rgb ++ [film_transparency_to_alpha ops a]) ∧
        length rgb = 3
  | Fail e =>
      film_get_pass_pixel_float4 ops kfilm_convert buffer = Fail e ∧
      film_get_pass_pixel_combined ops kfilm_convert buffer = Fail e
  end.
Proof.
  unfold film_get_pass_pixel_combined, film_get_pass_pixel_float4,
    film_get_pass_pixel_float3, kernel_assert, BLI_assert.
  rewrite film_scale_pair_agrees_aux.
  destruct (bool_decide (pass_offset ops kfilm_convert ≠ PASS_UNUSED ops));
    simpl; [|done].
  eexists. split; [reflexivity|]. done.
Qed.

End FilmScale.
